(** * Real-time poll backend: vote acceptance, abuse guard and tallies

    A shallow embedding of the two server variants of the repository
    (the one-shot server that stores [votedIPs] in the poll document, and
    the rate-limited server that keeps [voteTimestamps] in memory) together
    with the Mongoose schema of [models/Poll.js].

    Conventions.
    - A JavaScript [Number] that only ever holds counters or millisecond
      timestamps is an integer of [Z], unbounded (the counters stay far
      below 2^53, where doubles stop being exact).  The [optionIndex] of a
      request body is kept as a [jsval]: absent, [null], a boolean or a
      number; bodies that carry a string, an array or an object there are
      outside the model.
    - The database is a finite map from [pollId] to the stored document;
      [Poll.findOne] is a lookup and [poll.save()] either stores the
      handler's document or rejects, as told by the [saveOk] flag of the
      request (validation errors, duplicate keys and driver failures all
      reject the promise and land in the handler's [catch]).
    - [io.to(pollId).emit('voteUpdate', ...)] appends to the [emitted] log.
    - [clientIP] is the string computed by [getClientIP(req)] and [now] the
      reading of [Date.now()] taken by the handler. *)

From Stdlib Require Import ZArith QArith Qcanon Bool Ascii.
From stdpp Require Import gmap strings list fin_maps.

Open Scope Z_scope.

(** ** JavaScript scalars as they reach the handlers *)

(** IEEE numbers: every finite double is a rational. *)
Inductive number :=
  | NaN
  | Infinity (negative : bool)
  | Finite (q : Q).

(** The values of [req.body.optionIndex] that the handlers below are given:
    absent ([undefined]), [null], a boolean or a number.  A JSON body can
    also carry a string, an array or an object there; of these only the
    strings that name a member of the options array are modelled, by the
    handler of [MemberKey] further down, and no statement about [jsval]
    speaks for the others. *)
Inductive jsval :=
  | VUndefined
  | VNull
  | VBool (b : bool)
  | VNumber (n : number).

Definition VInt (z : Z) : jsval := VNumber (Finite (inject_Z z)).

(** ToNumber of the language specification. *)
Definition ToNumber (v : jsval) : number :=
  match v with
  | VUndefined => NaN
  | VNull => Finite 0
  | VBool true => Finite 1
  | VBool false => Finite 0
  | VNumber n => n
  end.

Definition Qltb (p q : Q) : bool := negb (Qle_bool q p).

(** The abstract relational comparison [x < y] on numbers; [None] is the
    specification's [undefined], produced when an operand is NaN. *)
Definition number_lt (x y : number) : option bool :=
  match x, y with
  | NaN, _ | _, NaN => None
  | Infinity nx, Infinity ny => Some (nx && negb ny)
  | Infinity nx, Finite _ => Some nx
  | Finite _, Infinity ny => Some (negb ny)
  | Finite p, Finite q => Some (Qltb p q)
  end.

(** [v < z] and [v >= z] for an integer right operand, as JavaScript
    evaluates them: both are false when the comparison is undefined. *)
Definition js_lt (v : jsval) (z : Z) : bool :=
  match number_lt (ToNumber v) (Finite (inject_Z z)) with
  | Some true => true
  | _ => false
  end.

Definition js_ge (v : jsval) (z : Z) : bool :=
  match number_lt (ToNumber v) (Finite (inject_Z z)) with
  | Some false => true
  | _ => false
  end.

(** The array index denoted by a property key: [arr[v]] names element [i]
    only when [v] is a number whose value is the non-negative integer [i];
    any other key ("undefined", "null", "true", "0.5", "NaN", ...) names a
    property that an array does not have. *)
Definition array_index (v : jsval) : option nat :=
  match v with
  | VNumber (Finite q) =>
      let r := Qred q in
      if decide (Qden r = 1%positive ∧ 0 ≤ Qnum r)
      then Some (Z.to_nat (Qnum r)) else None
  | _ => None
  end.

(** ** models/Poll.js *)

Record PollOption := mkOption {
  text : string;
  votes : Z
}.

Record Poll := mkPoll {
  pollId : string;
  question : string;
  options : list PollOption;
  votedIPs : list string;
  totalVotes : Z;
  createdAt : Z
}.

Definition sum_votes (opts : list PollOption) : Z :=
  foldr (λ o acc, votes o + acc) 0 opts.

(** ** Responses and server state *)

Inductive body :=
  | Error (error : string)
  | Wait (remainingTime : Z)
  | Created (newPollId : string)
  | Recorded (tally : list PollOption) (total : Z).

Record response := mkResponse {
  status : Z;
  json : body
}.

Record server := mkServer {
  db : gmap string Poll;
  voteTimestamps : gmap string (gmap string Z);
  emitted : list (string * (list PollOption * Z))
}.

Definition init : server := mkServer ∅ ∅ [].

(** ** POST /api/polls (the same in both servers)

    [newId] is the value returned by [nanoid(10)].  The schema declares
    [pollId] unique, so saving under an identifier that is already stored
    is rejected whatever [saveOk] says.  The body is taken to be of the
    shape the client sends: [question] a string and [options] an array of
    strings, either of them possibly missing; what the handler does with an
    [options] that is no array is not modelled.  [saveOk] stands for
    everything that decides the save, the schema's validation of the texts
    included.  Of a response only the status and
    the fields the properties below speak about are kept ([message] and
    [details] of the rate-limited server's 500 body are not); the schema's
    [trim] of the texts is not modelled, no handler reads a text. *)
Definition createPoll (s : server) (newId : string)
    (question : option string) (options : option (list string))
    (now : Z) (saveOk : bool) : server * response :=
  match question, options with
  | Some q, Some opts =>
      if decide (q = "") then
        (s, mkResponse 400 (Error "Question and at least 2 options are required"))
      else if decide (length opts < 2)%nat then
        (s, mkResponse 400 (Error "Question and at least 2 options are required"))
      else
        let poll := mkPoll newId q (map (λ opt, mkOption opt 0) opts) [] 0 now in
        match db s !! newId with
        | None =>
            if saveOk then
              (mkServer (<[newId := poll]> (db s)) (voteTimestamps s) (emitted s),
               mkResponse 201 (Created newId))
            else (s, mkResponse 500 (Error "Failed to create poll"))
        | Some _ => (s, mkResponse 500 (Error "Failed to create poll"))
        end
  | _, _ =>
      (s, mkResponse 400 (Error "Question and at least 2 options are required"))
  end.

(** [poll.options[optionIndex].votes += 1; poll.totalVotes += 1] on the
    handler's copy of the document.  [None] is the [TypeError] raised when
    [poll.options[optionIndex]] is [undefined], which for the values of
    [jsval] is the case for every key that is no index of the array
    ("undefined", "null", "true", "0.5", "NaN", ...). *)
Definition castVote (poll : Poll) (optionIndex : jsval) : option Poll :=
  i ← array_index optionIndex;
  o ← options poll !! i;
  Some (mkPoll (pollId poll) (question poll)
          (<[i := mkOption (text o) (votes o + 1)]> (options poll))
          (votedIPs poll) (totalVotes poll + 1) (createdAt poll)).

(** [optionIndex < 0 || optionIndex >= poll.options.length] *)
Definition invalidOption (poll : Poll) (optionIndex : jsval) : bool :=
  js_lt optionIndex 0 || js_ge optionIndex (Z.of_nat (length (options poll))).

(** ** The one-shot server: POST /api/polls/:pollId/vote *)
Module OneShot.

Definition vote (s : server) (pid : string) (optionIndex : jsval)
    (clientIP : string) (saveOk : bool) : server * response :=
  match db s !! pid with
  | None => (s, mkResponse 404 (Error "Poll not found"))
  | Some poll =>
      if invalidOption poll optionIndex then
        (s, mkResponse 400 (Error "Invalid option"))
      else if decide (clientIP ∈ votedIPs poll) then
        (s, mkResponse 403 (Error "You have already voted on this poll"))
      else
        match castVote poll optionIndex with
        | None => (s, mkResponse 500 (Error "Failed to record vote"))
        | Some p =>
            let poll' := mkPoll (pollId p) (question p) (options p)
                           (votedIPs p ++ [clientIP]) (totalVotes p) (createdAt p) in
            if saveOk then
              (mkServer (<[pid := poll']> (db s)) (voteTimestamps s)
                 (emitted s ++ [(pid, (options poll', totalVotes poll'))]),
               mkResponse 200 (Recorded (options poll') (totalVotes poll')))
            else (s, mkResponse 500 (Error "Failed to record vote"))
        end
  end.

End OneShot.

(** ** The rate-limited server *)
Module RateLimited.

Definition RATE_LIMIT_WINDOW : Z := 60 * 1000.

(** The [setInterval] callback, run with [now = Date.now()]. *)
Definition cleanup (now : Z) (vt : gmap string (gmap string Z))
    : gmap string (gmap string Z) :=
  omap (λ ipMap : gmap string Z,
          let kept := filter (λ e : string * Z, ¬ (now - e.2 > RATE_LIMIT_WINDOW * 2)) ipMap in
          if decide (size kept = 0%nat) then None else Some kept) vt.

(** What the sweep does for one entry it finds expired: [ipMap.delete(ip)],
    then the test [ipMap.size === 0] that drops the poll's map. *)
Definition deleteEntry (pid ip : string) (vt : gmap string (gmap string Z))
    : gmap string (gmap string Z) :=
  match vt !! pid with
  | Some ipMap =>
      let ipMap' := delete ip ipMap in
      if decide (size ipMap' = 0%nat) then delete pid vt else <[pid := ipMap']> vt
  | None => vt
  end.

(** [Math.ceil(x / 1000)] for an integer [x]. *)
Definition ceil_seconds (x : Z) : Z := - ((- x) / 1000).

(** Lines 188-202: the map for the poll is created on demand, then the last
    timestamp of the client is compared with the window.  The result is the
    guard state after the check and, on rejection, [remainingTime].
    [lastVoteTime && ...] is false for an absent entry and for a stored 0. *)
Definition check (vt : gmap string (gmap string Z)) (pid clientIP : string)
    (now : Z) : gmap string (gmap string Z) * option Z :=
  let vt1 := match vt !! pid with
             | None => <[pid := ∅]> vt
             | Some _ => vt
             end in
  let pollVotes := default ∅ (vt1 !! pid) in
  match pollVotes !! clientIP with
  | Some lastVoteTime =>
      if negb (lastVoteTime =? 0) && (now - lastVoteTime <? RATE_LIMIT_WINDOW) then
        (vt1, Some (ceil_seconds (RATE_LIMIT_WINDOW - (now - lastVoteTime))))
      else (vt1, None)
  | None => (vt1, None)
  end.

(** [pollVotes.set(clientIP, now)] *)
Definition record (vt : gmap string (gmap string Z)) (pid clientIP : string)
    (now : Z) : gmap string (gmap string Z) :=
  <[pid := <[clientIP := now]> (default ∅ (vt !! pid))]> vt.

Definition vote (s : server) (pid : string) (optionIndex : jsval)
    (clientIP : string) (now : Z) (saveOk : bool) : server * response :=
  match db s !! pid with
  | None => (s, mkResponse 404 (Error "Poll not found"))
  | Some poll =>
      if invalidOption poll optionIndex then
        (s, mkResponse 400 (Error "Invalid option"))
      else
        match check (voteTimestamps s) pid clientIP now with
        | (vt1, Some remainingTime) =>
            (mkServer (db s) vt1 (emitted s), mkResponse 429 (Wait remainingTime))
        | (vt1, None) =>
            let vt2 := record vt1 pid clientIP now in
            match castVote poll optionIndex with
            | None =>
                (mkServer (db s) vt2 (emitted s),
                 mkResponse 500 (Error "Failed to record vote"))
            | Some poll' =>
                if saveOk then
                  (mkServer (<[pid := poll']> (db s)) vt2
                     (emitted s ++ [(pid, (options poll', totalVotes poll'))]),
                   mkResponse 200 (Recorded (options poll') (totalVotes poll')))
                else
                  (mkServer (db s) vt2 (emitted s),
                   mkResponse 500 (Error "Failed to record vote"))
            end
        end
  end.

End RateLimited.

(** ** The two servers side by side *)

Inductive variant := one_shot | rate_limited.

Inductive request :=
  | CreatePoll (newId : string) (question : option string)
      (options : option (list string)) (now : Z) (saveOk : bool)
  | Vote (pid : string) (optionIndex : jsval) (clientIP : string)
      (now : Z) (saveOk : bool).

Definition handle (v : variant) (s : server) (r : request) : server * response :=
  match r with
  | CreatePoll newId q opts now saveOk => createPoll s newId q opts now saveOk
  | Vote pid optionIndex clientIP now saveOk =>
      match v with
      | one_shot => OneShot.vote s pid optionIndex clientIP saveOk
      | rate_limited => RateLimited.vote s pid optionIndex clientIP now saveOk
      end
  end.

Definition sweep (now : Z) (s : server) : server :=
  mkServer (db s) (RateLimited.cleanup now (voteTimestamps s)) (emitted s).

(** States of a server that handles its requests one at a time: it starts
    empty, runs each handler from its [findOne] to its response before the
    next one starts and, in the rate-limited server, runs the cleanup timer
    in between.  The handlers are asynchronous, so the real server can also
    let two of them overlap at their [await]s; the states that only an
    overlap produces are not in [reachable], they are the subject of
    [Interleaved] below. *)
Inductive reachable (v : variant) : server → Prop :=
  | reach_init : reachable v init
  | reach_handle s r : reachable v s → reachable v (handle v s r).1
  | reach_sweep s now :
      v = rate_limited → reachable v s → reachable v (sweep now s).

(** The requests [rs] handled one after another, none overlapping the
    next. *)
Definition run (v : variant) (s : server) (rs : list request) : server :=
  foldl (λ st r, (handle v st r).1) s rs.

(** ** Overlapping vote requests in the rate-limited server

    Node runs a handler without interruption between two [await]s.  The
    vote handler has two: [await Poll.findOne] and [await poll.save()].  A
    request in flight is therefore parked at one of them, and resuming it
    runs the code up to the next [await] (or to the response). *)
Module Interleaved.

Inductive inflight :=
  | AwaitFindOne (pid : string) (optionIndex : jsval) (clientIP : string)
  | AwaitSave (pid : string) (optionIndex : jsval) (poll : Poll)
  | Answered (r : response).

(** [poll.save()] sends the paths the handler modified on its document,
    [options.<i>.votes] and [totalVotes], with the values the document
    holds; the stored document takes them and keeps its other fields. *)
Definition save (d : gmap string Poll) (pid : string) (optionIndex : jsval)
    (poll : Poll) : gmap string Poll :=
  match array_index optionIndex with
  | Some i =>
      match options poll !! i with
      | Some o =>
          alter (λ stored,
                   mkPoll (pollId stored) (question stored)
                     (alter (λ x, mkOption (text x) (votes o)) i (options stored))
                     (votedIPs stored) (totalVotes poll) (createdAt stored))
            pid d
      | None => d
      end
  | None => d
  end.

Definition resume (s : server) (t : inflight) (now : Z) (saveOk : bool)
    : server * inflight :=
  match t with
  | AwaitFindOne pid optionIndex clientIP =>
      match db s !! pid with
      | None => (s, Answered (mkResponse 404 (Error "Poll not found")))
      | Some poll =>
          if invalidOption poll optionIndex then
            (s, Answered (mkResponse 400 (Error "Invalid option")))
          else
            match RateLimited.check (voteTimestamps s) pid clientIP now with
            | (vt1, Some remainingTime) =>
                (mkServer (db s) vt1 (emitted s),
                 Answered (mkResponse 429 (Wait remainingTime)))
            | (vt1, None) =>
                let vt2 := RateLimited.record vt1 pid clientIP now in
                match castVote poll optionIndex with
                | None =>
                    (mkServer (db s) vt2 (emitted s),
                     Answered (mkResponse 500 (Error "Failed to record vote")))
                | Some poll' =>
                    (mkServer (db s) vt2 (emitted s),
                     AwaitSave pid optionIndex poll')
                end
            end
      end
  | AwaitSave pid optionIndex poll =>
      if saveOk then
        (mkServer (save (db s) pid optionIndex poll) (voteTimestamps s)
           (emitted s ++ [(pid, (options poll, totalVotes poll))]),
         Answered (mkResponse 200 (Recorded (options poll) (totalVotes poll))))
      else (s, Answered (mkResponse 500 (Error "Failed to record vote")))
  | Answered r => (s, t)
  end.

(** Two requests in flight; each entry of the schedule names the request
    that is resumed next ([false] the first, [true] the second) together
    with the clock reading and the fate of its save. *)
Fixpoint run2 (s : server) (t1 t2 : inflight) (sched : list (bool * Z * bool))
    : server * inflight * inflight :=
  match sched with
  | [] => (s, t1, t2)
  | (false, now, saveOk) :: rest =>
      let '(s', t1') := resume s t1 now saveOk in run2 s' t1' t2 rest
  | (true, now, saveOk) :: rest =>
      let '(s', t2') := resume s t2 now saveOk in run2 s' t1 t2' rest
  end.

End Interleaved.

(** ** A vote whose [optionIndex] names a member of the array

    The vote handlers for a request whose [optionIndex] is a string such as
    "constructor" or "push": it is not numeric, so both comparisons of the
    range check are made with [NaN] and are false, and it names a function
    that the [options] array has, so [poll.options[optionIndex]] is defined,
    [.votes += 1] sets a property of that function without throwing and no
    option of the document changes.  [poll.totalVotes += 1] is then the only
    change to the tally that is saved. *)
Module MemberKey.

Definition vote (v : variant) (s : server) (pid clientIP : string) (now : Z)
    (saveOk : bool) : server * response :=
  match db s !! pid with
  | None => (s, mkResponse 404 (Error "Poll not found"))
  | Some poll =>
      match v with
      | one_shot =>
          if decide (clientIP ∈ votedIPs poll) then
            (s, mkResponse 403 (Error "You have already voted on this poll"))
          else
            let poll' := mkPoll (pollId poll) (question poll) (options poll)
                           (votedIPs poll ++ [clientIP]) (totalVotes poll + 1)
                           (createdAt poll) in
            if saveOk then
              (mkServer (<[pid := poll']> (db s)) (voteTimestamps s)
                 (emitted s ++ [(pid, (options poll', totalVotes poll'))]),
               mkResponse 200 (Recorded (options poll') (totalVotes poll')))
            else (s, mkResponse 500 (Error "Failed to record vote"))
      | rate_limited =>
          match RateLimited.check (voteTimestamps s) pid clientIP now with
          | (vt1, Some remainingTime) =>
              (mkServer (db s) vt1 (emitted s), mkResponse 429 (Wait remainingTime))
          | (vt1, None) =>
              let vt2 := RateLimited.record vt1 pid clientIP now in
              let poll' := mkPoll (pollId poll) (question poll) (options poll)
                             (votedIPs poll) (totalVotes poll + 1) (createdAt poll) in
              if saveOk then
                (mkServer (<[pid := poll']> (db s)) vt2
                   (emitted s ++ [(pid, (options poll', totalVotes poll'))]),
                 mkResponse 200 (Recorded (options poll') (totalVotes poll')))
              else
                (mkServer (db s) vt2 (emitted s),
                 mkResponse 500 (Error "Failed to record vote"))
          end
      end
  end.

End MemberKey.

(** ** Notions used in the statements *)

Definition tally_ok (poll : Poll) : Prop :=
  totalVotes poll = sum_votes (options poll).

(** The document a successful handler stores. *)
Definition stored_doc (v : variant) (clientIP : string) (p : Poll) : Poll :=
  match v with
  | one_shot =>
      mkPoll (pollId p) (question p) (options p) (votedIPs p ++ [clientIP])
        (totalVotes p) (createdAt p)
  | rate_limited => p
  end.

(** [voteTimestamps.get(pollId)?.get(clientIP)] *)
Definition lastVote (vt : gmap string (gmap string Z)) (pid ip : string)
    : option Z :=
  vt !! pid ≫= λ ipMap, ipMap !! ip.


(** The guard holds nothing against [ip] on poll [pid]. *)
Definition unrecorded (v : variant) (s : server) (pid ip : string) : Prop :=
  match v with
  | one_shot => ∀ poll, db s !! pid = Some poll → ip ∉ votedIPs poll
  | rate_limited => lastVote (voteTimestamps s) pid ip = None
  end.

Fixpoint replies (v : variant) (s : server) (rs : list request) : list response :=
  match rs with
  | [] => []
  | r :: rest => (handle v s r).2 :: replies v (handle v s r).1 rest
  end.

(** One vote request per voter [(clientIP, now)], all for the same option,
    each with a save that succeeds. *)
Definition ballots (pid : string) (idx : jsval) (voters : list (string * Z))
    : list request :=
  map (λ vn, Vote pid idx vn.1 vn.2 true) voters.

(** Stored count of option [i] of poll [pid]. *)
Definition option_votes (s : server) (pid : string) (i : nat) : option Z :=
  poll ← db s !! pid; o ← options poll !! i; Some (votes o).

(** A poll "Tea?" with options A and B, just created. *)
Definition demo : server :=
  (createPoll init "p1" (Some "Tea?") (Some ["A"; "B"]) 5 true).1.

(** The same poll after "x" voted for option 0 at time 1000 and "y" for
    option 1 at time 2000. *)
Definition demo_voted (v : variant) : server :=
  run v demo [Vote "p1" (VInt 0) "x" 1000 true; Vote "p1" (VInt 1) "y" 2000 true].

(** Both handlers load the poll, then both save. *)
Definition overlap : list (bool * Z * bool) :=
  [(false, 1000, true); (true, 1001, true); (false, 1002, true); (true, 1003, true)].

(** ** The rest of the two servers *)

(** What [getClientIP] reads of a request: two headers and the remote
    address of the connection, each a string or [undefined]. *)
Record origin := mkOrigin {
  x_forwarded_for : option string;
  x_real_ip : option string;
  connection_remoteAddress : option string;
  socket_remoteAddress : option string
}.

(** [s.split(',')[0]]: the part of [s] before its first comma, all of [s]
    when it has none. *)
Fixpoint first_segment (s : string) : string :=
  match s with
  | EmptyString => EmptyString
  | String c rest =>
      if Ascii.eqb c ","%char then EmptyString else String c (first_segment rest)
  end.

(** A string or [undefined] as a condition: [undefined] and [""] are false. *)
Definition truthy (a : option string) : bool :=
  match a with
  | Some s => negb (String.eqb s "")
  | None => false
  end.

(** [a || b] *)
Definition js_or (a b : option string) : option string :=
  if truthy a then a else b.

Definition getClientIP (req : origin) : option string :=
  js_or (first_segment <$> x_forwarded_for req)
    (js_or (x_real_ip req)
       (js_or (connection_remoteAddress req) (socket_remoteAddress req))).

(** The [poll] object of a successful GET; [hasVoted] is there in the
    one-shot server only. *)
Record pollView := mkView {
  view_pollId : string;
  view_question : string;
  view_options : list PollOption;
  view_totalVotes : Z;
  view_hasVoted : option bool
}.

Inductive fetched :=
  | FetchError (code : Z) (error : string)
  | FetchOk (poll : pollView).

(** GET /api/polls/:pollId.  [findOk] tells whether [Poll.findOne] resolved;
    [clientIP] is [getClientIP(req)], and [votedIPs.includes(undefined)]
    is false for a list of strings. *)
Definition getPoll (v : variant) (s : server) (pid : string)
    (clientIP : option string) (findOk : bool) : fetched :=
  if findOk then
    match db s !! pid with
    | None => FetchError 404 "Poll not found"
    | Some poll =>
        FetchOk (mkView (pollId poll) (question poll) (options poll) (totalVotes poll)
                   match v with
                   | one_shot =>
                       Some match clientIP with
                            | Some ip => bool_decide (ip ∈ votedIPs poll)
                            | None => false
                            end
                   | rate_limited => None
                   end)
    end
  else FetchError 500 "Failed to fetch poll".

(** ** Further notions used in the statements *)

(** The poll a request is addressed to (for a creation, the new id). *)
Definition target (r : request) : string :=
  match r with
  | CreatePoll newId _ _ _ _ => newId
  | Vote pid _ _ _ _ => pid
  end.

(** The totals carried by the broadcasts sent to the room of [pid], oldest
    first. *)
Definition totals_sent (pid : string) (log : list (string * (list PollOption * Z)))
    : list Z :=
  (λ e, e.2.2) <$> filter (λ e, e.1 = pid) log.

(** A stored document as the create handler shapes it and votes keep it. *)
Definition well_formed (pid : string) (poll : Poll) : Prop :=
  pollId poll = pid ∧ question poll ≠ "" ∧ (2 ≤ length (options poll))%nat ∧
  Forall (λ o, 0 ≤ votes o) (options poll) ∧ 0 ≤ totalVotes poll.

(** [p'] is a later state of the document [p]: same identity, question,
    creation time and option texts, no count lower than before. *)
Definition grown (p p' : Poll) : Prop :=
  pollId p' = pollId p ∧ question p' = question p ∧ createdAt p' = createdAt p ∧
  text <$> options p' = text <$> options p ∧
  Forall2 (λ o o', votes o ≤ votes o') (options p) (options p') ∧
  totalVotes p ≤ totalVotes p' ∧ votedIPs p `prefix_of` votedIPs p'.

(** * Properties *)

(** ** Comparisons and indexing with an integer [optionIndex] *)

Lemma Qltb_inject_Z (a b : Z) : Qltb (inject_Z a) (inject_Z b) = (a <? b).
Proof.
  unfold Qltb, Qle_bool, inject_Z; simpl.
  rewrite !Z.mul_1_r, Z.ltb_antisym. reflexivity.
Qed.

Lemma js_lt_VInt (z n : Z) : js_lt (VInt z) n = (z <? n).
Proof.
  unfold js_lt, VInt; simpl. rewrite Qltb_inject_Z. by destruct (z <? n).
Qed.

Lemma js_ge_VInt (z n : Z) : js_ge (VInt z) n = (n <=? z).
Proof.
  unfold js_ge, VInt; simpl. rewrite Qltb_inject_Z, Z.leb_antisym.
  by destruct (z <? n).
Qed.

Lemma array_index_VInt (z : Z) :
  array_index (VInt z) = if decide (0 ≤ z) then Some (Z.to_nat z) else None.
Proof.
  unfold array_index, VInt.
  rewrite Qred_identity by (simpl; apply Z.gcd_1_r).
  simpl. repeat case_decide; try done; tauto.
Qed.

Lemma invalidOption_VInt (poll : Poll) (z : Z) :
  invalidOption poll (VInt z) = true ↔ z < 0 ∨ Z.of_nat (length (options poll)) ≤ z.
Proof.
  unfold invalidOption. rewrite js_lt_VInt, js_ge_VInt, orb_true_iff.
  rewrite Z.ltb_lt, Z.leb_le. tauto.
Qed.

(** ** Tallies *)

Lemma sum_votes_insert (l : list PollOption) (i : nat) (o o' : PollOption) :
  l !! i = Some o →
  sum_votes (<[i := o']> l) = sum_votes l - votes o + votes o'.
Proof.
  revert i. induction l as [|x l IH]; intros [|i] Hi; simplify_eq/=; try lia.
  rewrite (IH i Hi). lia.
Qed.

Lemma sum_votes_fresh (opts : list string) :
  sum_votes (map (λ opt, mkOption opt 0) opts) = 0.
Proof. induction opts as [|x l IH]; simpl; [done | lia]. Qed.

Lemma castVote_Some (poll p' : Poll) (v : jsval) :
  castVote poll v = Some p' →
  ∃ i o, array_index v = Some i ∧ options poll !! i = Some o ∧
    p' = mkPoll (pollId poll) (question poll)
           (<[i := mkOption (text o) (votes o + 1)]> (options poll))
           (votedIPs poll) (totalVotes poll + 1) (createdAt poll).
Proof.
  unfold castVote. intros H.
  destruct (array_index v) as [i|]; simplify_eq/=.
  destruct (options poll !! i) as [o|] eqn:Ho; simplify_eq/=.
  by exists i, o.
Qed.

Lemma castVote_tally (poll p' : Poll) (v : jsval) :
  castVote poll v = Some p' →
  sum_votes (options p') = sum_votes (options poll) + 1 ∧
  totalVotes p' = totalVotes poll + 1 ∧ votedIPs p' = votedIPs poll.
Proof.
  intros (i & o & _ & Ho & ->)%castVote_Some; simpl.
  rewrite (sum_votes_insert _ _ _ _ Ho); simpl. repeat split; lia.
Qed.

(** ** What a vote request does to the server, in both variants *)

Lemma check_cases (vt : gmap string (gmap string Z)) (pid ip : string) (now : Z) :
  ∃ vt1 o, RateLimited.check vt pid ip now = (vt1, o) ∧
    (o ≠ None → vt1 = vt).
Proof.
  unfold RateLimited.check.
  destruct (vt !! pid) as [m|] eqn:Hm.
  - rewrite Hm; simpl. destruct (m !! ip) as [t|]; [|by eexists _, _].
    destruct (_ && _); by eexists _, _.
  - rewrite lookup_insert_eq; simpl. rewrite lookup_empty. by eexists _, _.
Qed.

(** Case analysis along the paths of the two handlers, in source order:
    invalid option, guard rejection, save succeeded, save failed, TypeError,
    poll not found. *)
Ltac one_shot_paths s pid idx ok :=
  unfold OneShot.vote;
  destruct (db s !! pid) as [poll|] eqn:Hp; simpl;
  [ destruct (invalidOption poll idx) eqn:Hi; simpl;
    [ | case_decide; simpl;
        [ | destruct (castVote poll idx) as [p'|] eqn:Hc; simpl;
            [ destruct ok; simpl | ] ] ]
  | ].

Ltac rate_limited_paths s pid idx ip now ok :=
  unfold RateLimited.vote;
  destruct (db s !! pid) as [poll|] eqn:Hp; simpl;
  [ destruct (invalidOption poll idx) eqn:Hi; simpl;
    [ | destruct (check_cases (voteTimestamps s) pid ip now) as (vt1 & rem & -> & Hvt);
        destruct rem as [rem|]; simpl;
        [ rewrite Hvt by done
        | destruct (castVote poll idx) as [p'|] eqn:Hc; simpl;
            [ destruct ok; simpl | ] ] ]
  | ].

Ltac in_list :=
  solve [repeat first [apply list_elem_of_here | apply list_elem_of_further]].

Lemma vote_paths (v : variant) (s : server) (pid : string) (idx : jsval)
    (ip : string) (now : Z) (ok : bool) :
  let s' := (handle v s (Vote pid idx ip now ok)).1 in
  let r := (handle v s (Vote pid idx ip now ok)).2 in
  (status r ∈ [403; 429] ∧ s' = s) ∨
  (status r ∈ [400; 404; 500] ∧ db s' = db s ∧ emitted s' = emitted s) ∨
  (status r = 200 ∧ ok = true ∧
   ∃ poll p', db s !! pid = Some poll ∧ invalidOption poll idx = false ∧
     castVote poll idx = Some p' ∧
     (v = one_shot → ip ∉ votedIPs poll) ∧
     db s' = <[pid := stored_doc v ip p']> (db s) ∧
     emitted s' = emitted s ++
       [(pid, (options (stored_doc v ip p'), totalVotes (stored_doc v ip p')))] ∧
     json r = Recorded (options (stored_doc v ip p')) (totalVotes (stored_doc v ip p'))).
Proof.
  destruct v; simpl;
    [one_shot_paths s pid idx ok | rate_limited_paths s pid idx ip now ok].
  all: try (right; left; split; [in_list | done]).
  all: try (left; split; [in_list | by destruct s]).
  all: right; right; repeat split; try done; by exists poll, p'.
Qed.

Lemma vote_cases (v : variant) (s : server) (pid : string) (idx : jsval)
    (ip : string) (now : Z) (ok : bool) :
  let s' := (handle v s (Vote pid idx ip now ok)).1 in
  let r := (handle v s (Vote pid idx ip now ok)).2 in
  (status r ≠ 200 ∧ db s' = db s ∧ emitted s' = emitted s) ∨
  (status r = 200 ∧ ok = true ∧
   ∃ poll p', db s !! pid = Some poll ∧ invalidOption poll idx = false ∧
     castVote poll idx = Some p' ∧
     (v = one_shot → ip ∉ votedIPs poll) ∧
     db s' = <[pid := stored_doc v ip p']> (db s) ∧
     emitted s' = emitted s ++
       [(pid, (options (stored_doc v ip p'), totalVotes (stored_doc v ip p')))] ∧
     json r = Recorded (options (stored_doc v ip p')) (totalVotes (stored_doc v ip p'))).
Proof.
  destruct (vote_paths v s pid idx ip now ok) as [[Hst Hs] | [(Hst & Hdb & Hem) | H]].
  - left. rewrite Hs. split; [|done].
    rewrite !elem_of_cons, elem_of_nil in Hst. lia.
  - left. split; [|done]. rewrite !elem_of_cons, elem_of_nil in Hst. lia.
  - by right.
Qed.

Lemma create_cases (s : server) (newId : string) (q : option string)
    (opts : option (list string)) (now : Z) (ok : bool) :
  let s' := (createPoll s newId q opts now ok).1 in
  let r := (createPoll s newId q opts now ok).2 in
  (status r ≠ 201 ∧ s' = s) ∨
  (status r = 201 ∧ ok = true ∧ db s !! newId = None ∧
   ∃ qt os, q = Some qt ∧ opts = Some os ∧ qt ≠ "" ∧ (2 ≤ length os)%nat ∧
     s' = mkServer
            (<[newId := mkPoll newId qt (map (λ opt, mkOption opt 0) os) [] 0 now]> (db s))
            (voteTimestamps s) (emitted s)).
Proof.
  unfold createPoll.
  destruct q as [qt|], opts as [os|]; try by left.
  case_decide; [by left|]. case_decide; [by left|].
  destruct (db s !! newId) eqn:Hd; [by left|].
  destruct ok; [|by left].
  right. repeat split; try done. exists qt, os. repeat split; try done. lia.
Qed.

(** ** Invariants of the stored polls *)

Section stored_polls.

(** A property of documents that holds of a freshly created poll and is kept
    by the update an admitted vote stores holds of every stored poll. *)
Context (v : variant) (P : Poll → Prop).

Hypothesis P_created :
  ∀ newId qt os now, P (mkPoll newId qt (map (λ opt, mkOption opt 0) os) [] 0 now).

Hypothesis P_voted :
  ∀ poll p' idx ip,
    P poll → castVote poll idx = Some p' → (v = one_shot → ip ∉ votedIPs poll) →
    P (stored_doc v ip p').

Lemma handle_db_lookup (s : server) (r : request) :
  (∀ pid poll, db s !! pid = Some poll → P poll) →
  ∀ pid poll, db (handle v s r).1 !! pid = Some poll → P poll.
Proof.
  intros Hs pid poll.
  destruct r as [newId q opts now ok | pid' idx ip now ok].
  - simpl. destruct (create_cases s newId q opts now ok) as [[_ ->] | H]; [apply Hs|].
    destruct H as (_ & _ & _ & qt & os & _ & _ & _ & _ & ->); simpl.
    rewrite lookup_insert. case_decide; [|apply Hs].
    intros [= <-]. apply P_created.
  - destruct (vote_cases v s pid' idx ip now ok) as [(_ & -> & _) | H]; [apply Hs|].
    destruct H as (_ & _ & p0 & p' & Hp0 & _ & Hc & Hip & -> & _).
    rewrite lookup_insert. case_decide; [|apply Hs].
    intros [= <-]. apply (P_voted p0 p' idx ip); [by eapply Hs | done | done].
Qed.

Lemma reachable_db_lookup (s : server) :
  reachable v s → ∀ pid poll, db s !! pid = Some poll → P poll.
Proof.
  intros Hs. induction Hs as [| s r _ IH | s now _ _ IH].
  - intros pid poll. simpl. by rewrite lookup_empty.
  - by apply handle_db_lookup.
  - exact IH.
Qed.

End stored_polls.

Lemma stored_doc_tally (v : variant) (ip : string) (p : Poll) :
  options (stored_doc v ip p) = options p ∧
  totalVotes (stored_doc v ip p) = totalVotes p.
Proof. by destruct v. Qed.

Lemma run_reachable (v : variant) (rs : list request) (s : server) :
  reachable v s → reachable v (run v s rs).
Proof.
  revert s. induction rs as [|r rs IH]; intros s Hs; [done|].
  simpl. apply IH. by apply reach_handle.
Qed.

Lemma demo_reachable (v : variant) : reachable v demo.
Proof.
  apply (reach_handle v init (CreatePoll "p1" (Some "Tea?") (Some ["A"; "B"]) 5 true)).
  apply reach_init.
Qed.

(** C1, as the code has it.  In either server, every poll stored in a
    state reached from the empty server by create and vote requests that
    are handled one at a time (and cleanup ticks), the votes carrying an
    [optionIndex] that is absent, [null], a boolean or a number, has
    [totalVotes] equal to the sum of its options' [votes]; a successful
    creation stores the poll with every count and the total at 0; and an
    admitted vote adds exactly 1 to the chosen option and to the total and
    leaves the other options as they were. *)
Theorem tally_invariant (v : variant) (s : server) :
  reachable v s →
  (∀ pid poll, db s !! pid = Some poll →
     totalVotes poll = sum_votes (options poll)) ∧
  (∀ newId q opts now ok,
     status (createPoll s newId q opts now ok).2 = 201 →
     ∃ poll, db (createPoll s newId q opts now ok).1 !! newId = Some poll ∧
       totalVotes poll = 0 ∧ ∀ o, o ∈ options poll → votes o = 0) ∧
  (∀ pid idx ip now ok,
     status (handle v s (Vote pid idx ip now ok)).2 = 200 →
     ∃ poll poll' i o,
       db s !! pid = Some poll ∧
       db (handle v s (Vote pid idx ip now ok)).1 !! pid = Some poll' ∧
       array_index idx = Some i ∧ options poll !! i = Some o ∧
       options poll' = <[i := mkOption (text o) (votes o + 1)]> (options poll) ∧
       totalVotes poll' = totalVotes poll + 1).
Proof.
  intros Hs. split; [|split].
  - revert s Hs. apply (reachable_db_lookup v tally_ok).
    + intros. unfold tally_ok; simpl. by rewrite sum_votes_fresh.
    + intros poll p' idx ip Hok Hc _. unfold tally_ok in *.
      destruct (stored_doc_tally v ip p') as [-> ->].
      destruct (castVote_tally _ _ _ Hc) as (-> & -> & _). lia.
  - intros newId q opts now ok H201.
    destruct (create_cases s newId q opts now ok) as [[Hne _] | H]; [done|].
    destruct H as (_ & _ & _ & qt & os & _ & _ & _ & _ & ->); simpl.
    eexists. rewrite lookup_insert_eq. split; [done|]. split; [done|]. simpl.
    intros o (x & -> & _)%list_elem_of_fmap. done.
  - intros pid idx ip now ok H200.
    destruct (vote_cases v s pid idx ip now ok) as [(Hne & _) | H]; [done|].
    destruct H as (_ & _ & poll & p' & Hp & _ & Hc & _ & -> & _).
    destruct (castVote_Some _ _ _ Hc) as (i & o & Hi & Ho & ->).
    exists poll, (stored_doc v ip
      (mkPoll (pollId poll) (question poll)
         (<[i := mkOption (text o) (votes o + 1)]> (options poll))
         (votedIPs poll) (totalVotes poll + 1) (createdAt poll))), i, o.
    rewrite lookup_insert_eq. repeat split; try done; by destruct v.
Qed.

Lemma tally_invariant_witness :
  totalVotes (mkPoll "p1" "Tea?" [mkOption "A" 1; mkOption "B" 1] [] 2 5) =
  sum_votes (options (mkPoll "p1" "Tea?" [mkOption "A" 1; mkOption "B" 1] [] 2 5)).
Proof.
  apply (proj1 (tally_invariant rate_limited (demo_voted rate_limited)
                  (run_reachable rate_limited _ _ (demo_reachable rate_limited))) "p1").
  vm_compute. reflexivity.
Defined.

(** C1 as stated fails when two vote handlers overlap.  In the rate-limited
    server "x" votes for option 0 and "y" for option 1 of a fresh poll with
    two options, and both handlers get the poll from [findOne] before either
    saves.  Both votes are admitted, each answered 200 with a tally of its
    own, and the poll that ends up stored has counts 1 and 1 but a total of
    1: each save wrote its own option's count and the total it had computed
    from the snapshot it loaded. *)
Lemma overlapping_votes_break_invariant :
  let '(s', t1, t2) :=
    Interleaved.run2 demo (Interleaved.AwaitFindOne "p1" (VInt 0) "x")
      (Interleaved.AwaitFindOne "p1" (VInt 1) "y") overlap in
  t1 = Interleaved.Answered
         (mkResponse 200 (Recorded [mkOption "A" 1; mkOption "B" 0] 1)) ∧
  t2 = Interleaved.Answered
         (mkResponse 200 (Recorded [mkOption "A" 0; mkOption "B" 1] 1)) ∧
  ∃ poll, db s' !! "p1" = Some poll ∧
    options poll = [mkOption "A" 1; mkOption "B" 1] ∧
    totalVotes poll = 1 ∧ sum_votes (options poll) = 2 ∧
    totalVotes poll ≠ sum_votes (options poll).
Proof.
  vm_compute. split; [reflexivity|]. split; [reflexivity|].
  eexists. split; [reflexivity|]. repeat split. discriminate.
Qed.

(** Nor does every vote that is admitted one at a time add to an option: a
    vote whose [optionIndex] is the string "constructor" (see [MemberKey])
    is answered 200 by either server, adds 1 to the total and to no count,
    and so leaves a stored poll whose total is not the sum of its counts. *)
Lemma member_key_vote_breaks_tally (v : variant) :
  (MemberKey.vote v demo "p1" "x" 1000 true).2 =
    mkResponse 200 (Recorded [mkOption "A" 0; mkOption "B" 0] 1) ∧
  ∃ poll, db (MemberKey.vote v demo "p1" "x" 1000 true).1 !! "p1" = Some poll ∧
    options poll = [mkOption "A" 0; mkOption "B" 0] ∧ totalVotes poll = 1 ∧
    totalVotes poll ≠ sum_votes (options poll).
Proof.
  destruct v; vm_compute; (split; [reflexivity|]);
    eexists; (split; [reflexivity|]); repeat split; discriminate.
Qed.



(** C6. In either server, a vote on an existing poll whose [optionIndex] is
    an integer below 0 or at least the number of options is answered with
    400 "Invalid option" and leaves the whole server state, hence every
    count and total, as it was; -1 and the number of options are such
    indices. *)
Theorem out_of_range_vote_rejected (v : variant) (s : server) (pid : string)
    (poll : Poll) (z : Z) (ip : string) (now : Z) (ok : bool) :
  db s !! pid = Some poll →
  z < 0 ∨ Z.of_nat (length (options poll)) ≤ z →
  handle v s (Vote pid (VInt z) ip now ok) =
    (s, mkResponse 400 (Error "Invalid option")).
Proof.
  intros Hp Hz%invalidOption_VInt.
  destruct v; simpl; unfold OneShot.vote, RateLimited.vote; by rewrite Hp, Hz.
Qed.

Lemma out_of_range_vote_rejected_witness :
  handle rate_limited demo (Vote "p1" (VInt (-1)) "x" 1000 true) =
    (demo, mkResponse 400 (Error "Invalid option")) ∧
  handle one_shot demo (Vote "p1" (VInt 2) "x" 1000 true) =
    (demo, mkResponse 400 (Error "Invalid option")).
Proof.
  split.
  - apply (out_of_range_vote_rejected rate_limited demo "p1"
             (mkPoll "p1" "Tea?" [mkOption "A" 0; mkOption "B" 0] [] 0 5));
      [vm_compute; reflexivity | left; lia].
  - apply (out_of_range_vote_rejected one_shot demo "p1"
             (mkPoll "p1" "Tea?" [mkOption "A" 0; mkOption "B" 0] [] 0 5));
      [vm_compute; reflexivity | right; simpl; lia].
Defined.

(** C8. In either server a vote that is not answered with 200 leaves the
    stored polls and the log of broadcasts as they were; a vote rejected by
    the abuse guard (403 or 429) leaves the entire server state untouched;
    and a broadcast is appended only by a vote whose save succeeded, after
    the new document was stored, and carries that document's tally. *)
Theorem failed_vote_leaves_no_trace (v : variant) (s : server) (pid : string)
    (idx : jsval) (ip : string) (now : Z) (ok : bool) :
  let s' := (handle v s (Vote pid idx ip now ok)).1 in
  let r := (handle v s (Vote pid idx ip now ok)).2 in
  (status r ≠ 200 → db s' = db s ∧ emitted s' = emitted s) ∧
  (status r = 403 ∨ status r = 429 → s' = s) ∧
  (emitted s' ≠ emitted s →
     ok = true ∧ status r = 200 ∧
     ∃ poll', db s' !! pid = Some poll' ∧
       emitted s' = emitted s ++ [(pid, (options poll', totalVotes poll'))]) ∧
  status r ∈ [200; 400; 403; 404; 429; 500].
Proof.
  intros s' r. subst s' r.
  destruct (vote_paths v s pid idx ip now ok) as [[Hst Hs] | [(Hst & Hdb & Hem) | H]].
  - rewrite Hs. rewrite !elem_of_cons, elem_of_nil in Hst.
    repeat split; try done.
    rewrite !elem_of_cons. lia.
  - rewrite Hdb, Hem. rewrite !elem_of_cons, elem_of_nil in Hst.
    repeat split; try done; try lia.
    rewrite !elem_of_cons. lia.
  - destruct H as (H200 & Hok & poll & p' & _ & _ & _ & _ & Hdb & Hem & _).
    split; [done|]. split; [lia|]. split.
    + intros _. split; [done|]. split; [done|]. exists (stored_doc v ip p').
      by rewrite Hdb, lookup_insert_eq.
    + rewrite H200. in_list.
Qed.

(** ** The rate limiter *)

Lemma check_result (vt : gmap string (gmap string Z)) (pid ip : string) (now : Z) :
  (RateLimited.check vt pid ip now).2 =
  match lastVote vt pid ip with
  | Some t =>
      if negb (t =? 0) && (now - t <? RateLimited.RATE_LIMIT_WINDOW)
      then Some (RateLimited.ceil_seconds (RateLimited.RATE_LIMIT_WINDOW - (now - t)))
      else None
  | None => None
  end.
Proof.
  unfold RateLimited.check, lastVote.
  destruct (vt !! pid) as [m|] eqn:Hm; simpl.
  - rewrite Hm; simpl. destruct (m !! ip) as [t|]; [|done]. by destruct (_ && _).
  - rewrite lookup_insert_eq; simpl. by rewrite lookup_empty.
Qed.

Lemma ceil_seconds_spec (x : Z) :
  1000 * (RateLimited.ceil_seconds x - 1) < x ≤ 1000 * RateLimited.ceil_seconds x.
Proof.
  unfold RateLimited.ceil_seconds.
  pose proof (Z.div_mod (- x) 1000 ltac:(lia)).
  pose proof (Z.mod_pos_bound (- x) 1000 ltac:(lia)). lia.
Qed.

(** C5. The window is 60 s (60000 ms).  For a pair whose recorded timestamp
    is [last] (a reading of [Date.now()], hence not 0) a check at [now]
    rejects exactly when [now - last] is below the window; the rejection
    carries [remainingTime], the least whole number of seconds covering
    [W - (now - last)] ms, which is at least 1.  A check for a pair with no
    record, whether the poll has no map at all or the map has no entry for
    the identity, admits. *)
Theorem rate_limit_check (vt : gmap string (gmap string Z)) (pid ip : string)
    (now : Z) :
  RateLimited.RATE_LIMIT_WINDOW = 60 * 1000 ∧
  (∀ ipMap last,
     vt !! pid = Some ipMap → ipMap !! ip = Some last → last ≠ 0 →
     (now - last < RateLimited.RATE_LIMIT_WINDOW →
        ∃ r, (RateLimited.check vt pid ip now).2 = Some r ∧ 0 < r ∧
          1000 * (r - 1) < RateLimited.RATE_LIMIT_WINDOW - (now - last) ≤ 1000 * r) ∧
     (RateLimited.RATE_LIMIT_WINDOW ≤ now - last →
        (RateLimited.check vt pid ip now).2 = None) ∧
     (is_Some (RateLimited.check vt pid ip now).2 ↔
        now - last < RateLimited.RATE_LIMIT_WINDOW)) ∧
  (vt !! pid = None → (RateLimited.check vt pid ip now).2 = None) ∧
  (∀ ipMap, vt !! pid = Some ipMap → ipMap !! ip = None →
     (RateLimited.check vt pid ip now).2 = None).
Proof.
  split; [done|]. rewrite check_result. unfold lastVote.
  split; [|split].
  - intros m last -> Hl Hnz; simpl. rewrite Hl.
    assert (negb (last =? 0) = true) as -> by (apply negb_true_iff; lia).
    simpl. destruct (Z.ltb_spec (now - last) RateLimited.RATE_LIMIT_WINDOW) as [Hlt|Hge].
    + split; [|split].
      * intros _. eexists. split; [done|].
        pose proof (ceil_seconds_spec (RateLimited.RATE_LIMIT_WINDOW - (now - last))).
        split; lia.
      * lia.
      * split; [done | by eexists].
    + split; [|split]; [lia | done |].
      split; [by intros [? ?] | lia].
  - by intros ->.
  - intros m -> Hl; simpl. by rewrite Hl.
Qed.

Lemma rate_limit_check_witness :
  ∃ r, (RateLimited.check (voteTimestamps (demo_voted rate_limited)) "p1" "x" 2500).2
         = Some r ∧ 0 < r ∧
       1000 * (r - 1) < RateLimited.RATE_LIMIT_WINDOW - (2500 - 1000) ≤ 1000 * r.
Proof.
  pose proof (rate_limit_check (voteTimestamps (demo_voted rate_limited)) "p1" "x" 2500)
    as (_ & Hrec & _).
  destruct (Hrec (<["x" := 1000]> (<["y" := 2000]> ∅)) 1000) as (Hrej & _);
    [vm_compute; reflexivity | vm_compute; reflexivity | lia |].
  apply Hrej. vm_compute. reflexivity.
Defined.

(** The handler answers 429 with the guard's [remainingTime] exactly when
    the check rejects, whatever the save would have done. *)
Lemma vote_rate_limited (s : server) (pid : string) (poll : Poll) (idx : jsval)
    (ip : string) (now : Z) (ok : bool) :
  db s !! pid = Some poll → invalidOption poll idx = false →
  match (RateLimited.check (voteTimestamps s) pid ip now).2 with
  | Some r => RateLimited.vote s pid idx ip now ok = (s, mkResponse 429 (Wait r))
  | None => status (RateLimited.vote s pid idx ip now ok).2 ≠ 429
  end.
Proof.
  intros Hp Hi. unfold RateLimited.vote. rewrite Hp, Hi.
  destruct (check_cases (voteTimestamps s) pid ip now) as (vt1 & o & -> & Hvt).
  simpl. destruct o as [r|].
  - rewrite Hvt by done. by destruct s.
  - destruct (castVote poll idx); [destruct ok|]; done.
Qed.

(** ** The cleanup timer *)

Lemma lastVote_cleanup (now : Z) (vt : gmap string (gmap string Z)) (pid ip : string) :
  lastVote (RateLimited.cleanup now vt) pid ip =
  lastVote vt pid ip ≫= λ t,
    if decide (now - t > RateLimited.RATE_LIMIT_WINDOW * 2) then None else Some t.
Proof.
  unfold lastVote, RateLimited.cleanup. rewrite lookup_omap.
  destruct (vt !! pid) as [m|]; simpl; [|done].
  case_decide as Hsz; simpl.
  - apply map_size_empty_iff in Hsz.
    destruct (m !! ip) as [t|] eqn:Ht; simpl; [|done].
    case_decide as Hold; [done|]. exfalso.
    assert (filter (λ e : string * Z, ¬ now - e.2 > RateLimited.RATE_LIMIT_WINDOW * 2) m
              !! ip = Some t) as Hf by (by apply map_lookup_filter_Some).
    by rewrite Hsz, lookup_empty in Hf.
  - destruct (m !! ip) as [t|] eqn:Ht; simpl.
    + case_decide as Hold.
      * apply map_lookup_filter_None. right. intros t' Ht'. simplify_eq. simpl. tauto.
      * by apply map_lookup_filter_Some.
    + apply map_lookup_filter_None. by left.
Qed.

Lemma lastVote_deleteEntry (vt : gmap string (gmap string Z)) (pid ip pid' ip' : string) :
  lastVote (RateLimited.deleteEntry pid ip vt) pid' ip' =
  if decide (pid = pid' ∧ ip = ip') then None else lastVote vt pid' ip'.
Proof.
  unfold lastVote, RateLimited.deleteEntry.
  destruct (vt !! pid) as [m|] eqn:Hm.
  - case_decide as Hsz.
    + apply map_size_empty_iff in Hsz.
      destruct (decide (pid = pid')) as [<-|Hne].
      * rewrite lookup_delete_eq, Hm; simpl.
        case_decide as Hd; [done|].
        assert (ip ≠ ip') as Hip by tauto.
        by rewrite <- (lookup_delete_ne m ip ip'), Hsz, lookup_empty.
      * rewrite lookup_delete_ne by done. rewrite decide_False by tauto. done.
    + destruct (decide (pid = pid')) as [<-|Hne].
      * rewrite lookup_insert_eq, Hm; simpl.
        case_decide as Hd.
        -- destruct Hd as [_ <-]. apply lookup_delete_eq.
        -- apply lookup_delete_ne. tauto.
      * rewrite lookup_insert_ne by done. rewrite decide_False by tauto. done.
  - case_decide as Hd; [|done]. destruct Hd as [<- _]. by rewrite Hm.
Qed.

(** C9. If the entry of [(pid, ip)] is more than twice the window older
    than the current time [now], then deleting it the way the sweep does,
    and likewise running the whole sweep at [now], gives a guard state on
    which every check made at [now] or later, for any poll and identity,
    returns what it returns on the original state; and the sweep at [now]
    does delete that entry. *)
Theorem cleanup_safe (vt : gmap string (gmap string Z)) (now : Z)
    (pid ip : string) (ipMap : gmap string Z) (ts : Z) :
  vt !! pid = Some ipMap → ipMap !! ip = Some ts →
  now - ts > RateLimited.RATE_LIMIT_WINDOW * 2 →
  lastVote (RateLimited.cleanup now vt) pid ip = None ∧
  ∀ pid' ip' now', now ≤ now' →
    (RateLimited.check (RateLimited.deleteEntry pid ip vt) pid' ip' now').2 =
      (RateLimited.check vt pid' ip' now').2 ∧
    (RateLimited.check (RateLimited.cleanup now vt) pid' ip' now').2 =
      (RateLimited.check vt pid' ip' now').2.
Proof.
  intros Hm Hip Hold.
  assert (lastVote vt pid ip = Some ts) as Hlast
    by (unfold lastVote; rewrite Hm; done).
  split.
  - rewrite lastVote_cleanup, Hlast; simpl. by rewrite decide_True.
  - intros pid' ip' now' Hle. rewrite !check_result.
    rewrite lastVote_deleteEntry, lastVote_cleanup.
    unfold RateLimited.RATE_LIMIT_WINDOW in *. split.
    + case_decide as Hd; [|done]. destruct Hd as [<- <-]. rewrite Hlast.
      destruct (negb (ts =? 0)); simpl; [|done].
      destruct (Z.ltb_spec (now' - ts) (60 * 1000)); [lia | done].
    + destruct (lastVote vt pid' ip') as [t|]; simpl; [|done].
      case_decide as Ht; [|done].
      destruct (negb (t =? 0)); simpl; [|done].
      destruct (Z.ltb_spec (now' - t) (60 * 1000)); [lia | done].
Qed.

Lemma cleanup_safe_witness :
  lastVote (RateLimited.cleanup 200000 (voteTimestamps (demo_voted rate_limited)))
    "p1" "x" = None ∧
  (RateLimited.check
     (RateLimited.cleanup 200000 (voteTimestamps (demo_voted rate_limited)))
     "p1" "x" 200001).2 =
  (RateLimited.check (voteTimestamps (demo_voted rate_limited)) "p1" "x" 200001).2.
Proof.
  destruct (cleanup_safe (voteTimestamps (demo_voted rate_limited)) 200000 "p1" "x"
              (<["x" := 1000]> (<["y" := 2000]> ∅)) 1000) as [Hgone Hsame];
    [vm_compute; reflexivity | vm_compute; reflexivity | vm_compute; reflexivity |].
  split; [exact Hgone|].
  apply Hsame. lia.
Defined.

(** ** Voting twice in the one-shot server *)






(** ** A save that fails *)

(** In the one-shot server the abuse record is part of the document, so a
    failed save leaves no record behind. *)
Lemma one_shot_failed_save (s : server) (pid : string) (idx : jsval) (ip : string) :
  (OneShot.vote s pid idx ip false).1 = s ∧
  status (OneShot.vote s pid idx ip false).2 ≠ 200.
Proof.
  unfold OneShot.vote. destruct (db s !! pid) as [poll|]; [|done].
  destruct (invalidOption poll idx); [done|]. case_decide; [done|].
  by destruct (castVote poll idx).
Qed.

(** In the rate-limited server [pollVotes.set(clientIP, now)] runs before
    [poll.save()]: whenever the handler gets as far as the save, the
    timestamp is in the guard state even if the save then fails. *)
Lemma rate_limited_failed_save (s : server) (pid : string) (poll p' : Poll)
    (idx : jsval) (ip : string) (now : Z) :
  db s !! pid = Some poll → invalidOption poll idx = false →
  (RateLimited.check (voteTimestamps s) pid ip now).2 = None →
  castVote poll idx = Some p' →
  status (RateLimited.vote s pid idx ip now false).2 = 500 ∧
  db (RateLimited.vote s pid idx ip now false).1 = db s ∧
  lastVote (voteTimestamps (RateLimited.vote s pid idx ip now false).1) pid ip = Some now.
Proof.
  intros Hp Hi Hchk Hc. unfold RateLimited.vote. rewrite Hp, Hi, Hc.
  destruct (RateLimited.check _ _ _ _) as [vt1 o]. simpl in Hchk. subst o. simpl.
  repeat split. unfold lastVote, RateLimited.record.
  rewrite lookup_insert_eq; simpl. apply lookup_insert_eq.
Qed.

(** C3 fails in the rate-limited server.  "x" votes at time 1000 for option
    0 of a fresh two-option poll and the save fails: the answer is 500 and
    the stored poll is unchanged, yet the guard now holds the timestamp 1000
    for ("p1", "x"), and the retry one second later, whose save would
    succeed, is answered 429 with 59 seconds to wait. *)
Theorem failed_save_blocks_voter :
  let s1 := (RateLimited.vote demo "p1" (VInt 0) "x" 1000 false).1 in
  (RateLimited.vote demo "p1" (VInt 0) "x" 1000 false).2 =
    mkResponse 500 (Error "Failed to record vote") ∧
  db s1 = db demo ∧
  lastVote (voteTimestamps demo) "p1" "x" = None ∧
  lastVote (voteTimestamps s1) "p1" "x" = Some 1000 ∧
  RateLimited.vote s1 "p1" (VInt 0) "x" 2000 true = (s1, mkResponse 429 (Wait 59)).
Proof. vm_compute. repeat split; reflexivity. Qed.

(** ** A request without a usable [optionIndex] *)

Lemma not_number_passes_range_check (poll : Poll) (idx : jsval) :
  (∀ n, idx ≠ VNumber n) → (2 ≤ length (options poll))%nat →
  invalidOption poll idx = false ∧ castVote poll idx = None.
Proof.
  intros Hn Hlen. unfold invalidOption, castVote, js_lt, js_ge.
  destruct idx as [| | [|] | n]; simpl; try done; [| | | by destruct (Hn n)].
  all: unfold Qltb, Qle_bool; simpl; rewrite ?Z.mul_1_r.
  all: split; [|done].
  all: destruct (Z.leb_spec (Z.of_nat (length (options poll))) 0);
    destruct (Z.leb_spec (Z.of_nat (length (options poll))) 1); simpl; try done; lia.
Qed.

(** C7 fails in both servers.  On an existing poll (with the two or more
    options every created poll has) a vote whose [optionIndex] is missing,
    [null] or a boolean passes the range check, so it is never answered 400:
    the abuse guard answers 403 or 429 if it rejects, and otherwise
    [poll.options[optionIndex]] is [undefined], the handler throws and the
    answer is 500 "Failed to record vote". *)
Theorem malformed_optionIndex_not_400 (v : variant) (s : server) (pid : string)
    (poll : Poll) (idx : jsval) (ip : string) (now : Z) (ok : bool) :
  db s !! pid = Some poll → (2 ≤ length (options poll))%nat →
  (∀ n, idx ≠ VNumber n) →
  let r := (handle v s (Vote pid idx ip now ok)).2 in
  status r ≠ 400 ∧
  match v with
  | one_shot =>
      if decide (ip ∈ votedIPs poll) then status r = 403
      else r = mkResponse 500 (Error "Failed to record vote")
  | rate_limited =>
      match (RateLimited.check (voteTimestamps s) pid ip now).2 with
      | Some _ => status r = 429
      | None => r = mkResponse 500 (Error "Failed to record vote")
      end
  end.
Proof.
  intros Hp Hlen Hn.
  destruct (not_number_passes_range_check poll idx Hn Hlen) as [Hi Hc].
  destruct v; simpl.
  - unfold OneShot.vote. rewrite Hp, Hi, Hc. by case_decide.
  - unfold RateLimited.vote. rewrite Hp, Hi, Hc.
    by destruct (RateLimited.check _ _ _ _) as [vt1 [rem|]].
Qed.

Lemma malformed_optionIndex_not_400_witness :
  (handle rate_limited demo (Vote "p1" VUndefined "x" 1000 true)).2 =
    mkResponse 500 (Error "Failed to record vote") ∧
  (handle one_shot demo (Vote "p1" VUndefined "x" 1000 true)).2 =
    mkResponse 500 (Error "Failed to record vote").
Proof.
  split.
  - apply (malformed_optionIndex_not_400 rate_limited demo "p1"
             (mkPoll "p1" "Tea?" [mkOption "A" 0; mkOption "B" 0] [] 0 5)
             VUndefined "x" 1000 true);
      [vm_compute; reflexivity | simpl; lia | intros n; discriminate].
  - apply (malformed_optionIndex_not_400 one_shot demo "p1"
             (mkPoll "p1" "Tea?" [mkOption "A" 0; mkOption "B" 0] [] 0 5)
             VUndefined "x" 1000 true);
      [vm_compute; reflexivity | simpl; lia | intros n; discriminate].
Defined.

(** ** Votes handled one after another, and votes that overlap *)

Lemma lastVote_check (vt : gmap string (gmap string Z)) (pid ip : string) (now : Z)
    (pid' ip' : string) :
  lastVote (RateLimited.check vt pid ip now).1 pid' ip' = lastVote vt pid' ip'.
Proof.
  unfold RateLimited.check, lastVote.
  destruct (vt !! pid) as [m|] eqn:Hm.
  - rewrite Hm; simpl. destruct (m !! ip); [destruct (_ && _)|]; done.
  - rewrite lookup_insert_eq; simpl. rewrite lookup_empty; simpl.
    destruct (decide (pid = pid')) as [<-|Hne].
    + by rewrite lookup_insert_eq, Hm.
    + by rewrite lookup_insert_ne.
Qed.

Lemma lastVote_record (vt : gmap string (gmap string Z)) (pid ip : string) (now : Z)
    (pid' ip' : string) :
  lastVote (RateLimited.record vt pid ip now) pid' ip' =
  if decide (pid = pid' ∧ ip = ip') then Some now else lastVote vt pid' ip'.
Proof.
  unfold RateLimited.record, lastVote.
  destruct (decide (pid = pid')) as [<-|Hne].
  - rewrite lookup_insert_eq; simpl.
    destruct (decide (ip = ip')) as [<-|Hip].
    + rewrite lookup_insert_eq. by rewrite decide_True.
    + rewrite lookup_insert_ne by done. rewrite decide_False by tauto.
      by destruct (vt !! pid).
  - rewrite lookup_insert_ne by done. by rewrite decide_False by tauto.
Qed.

Lemma castVote_in_range (poll : Poll) (i : nat) (o : PollOption) :
  options poll !! i = Some o →
  invalidOption poll (VInt (Z.of_nat i)) = false ∧
  castVote poll (VInt (Z.of_nat i)) =
    Some (mkPoll (pollId poll) (question poll)
            (<[i := mkOption (text o) (votes o + 1)]> (options poll))
            (votedIPs poll) (totalVotes poll + 1) (createdAt poll)).
Proof.
  intros Ho. pose proof (lookup_lt_Some _ _ _ Ho) as Hlt. split.
  - apply not_true_is_false. rewrite invalidOption_VInt. lia.
  - unfold castVote. rewrite array_index_VInt, decide_True by lia.
    simpl. rewrite Nat2Z.id, Ho. done.
Qed.

Lemma vote_admitted (v : variant) (s : server) (pid : string) (poll : Poll)
    (i : nat) (o : PollOption) (ip : string) (now : Z) :
  db s !! pid = Some poll → options poll !! i = Some o →
  unrecorded v s pid ip →
  let p' := stored_doc v ip
              (mkPoll (pollId poll) (question poll)
                 (<[i := mkOption (text o) (votes o + 1)]> (options poll))
                 (votedIPs poll) (totalVotes poll + 1) (createdAt poll)) in
  let res := handle v s (Vote pid (VInt (Z.of_nat i)) ip now true) in
  res.2 = mkResponse 200 (Recorded (options p') (totalVotes p')) ∧
  db res.1 = <[pid := p']> (db s) ∧
  (∀ ip', ip' ≠ ip → unrecorded v s pid ip' → unrecorded v res.1 pid ip').
Proof.
  intros Hp Ho Hun. destruct (castVote_in_range poll i o Ho) as [Hi Hc].
  destruct v; simpl in *.
  - unfold OneShot.vote. rewrite Hp, Hi, Hc.
    rewrite decide_False by (by apply Hun). simpl. repeat split.
    intros ip' Hne Hun' q. rewrite lookup_insert_eq. intros [= <-]. simpl.
    specialize (Hun' _ eq_refl).
    rewrite elem_of_app, list_elem_of_singleton. tauto.
  - unfold RateLimited.vote. rewrite Hp, Hi, Hc.
    pose proof (check_result (voteTimestamps s) pid ip now) as Hres.
    pose proof (lastVote_check (voteTimestamps s) pid ip now pid) as Hlv.
    rewrite Hun in Hres.
    destruct (RateLimited.check _ _ _ _) as [vt1 res]. simpl in *. subst res.
    simpl. repeat split.
    intros ip' Hne Hun'. rewrite lastVote_record, decide_False by (intros [_ ->]; done).
    by rewrite Hlv.
Qed.

Lemma ballots_cons (pid : string) (idx : jsval) (ip : string) (now : Z)
    (voters : list (string * Z)) :
  ballots pid idx ((ip, now) :: voters) =
  Vote pid idx ip now true :: ballots pid idx voters.
Proof. reflexivity. Qed.

Lemma replies_cons (v : variant) (s : server) (r : request) (rs : list request) :
  replies v s (r :: rs) = (handle v s r).2 :: replies v (handle v s r).1 rs.
Proof. reflexivity. Qed.

Lemma run_cons (v : variant) (s : server) (r : request) (rs : list request) :
  run v s (r :: rs) = run v (handle v s r).1 rs.
Proof. reflexivity. Qed.

(** C2, as the code has it: votes handled one after another.  When [n]
    distinct identities, against none of which the guard holds a record,
    vote in turn for the same option [i] of an existing poll and every save
    succeeds, every one of them is answered 200, the option's count and the
    total have each grown by exactly [n], the other options are as before,
    and the total is still the sum of the counts if it was. *)
Theorem serial_votes_all_counted (v : variant) (voters : list (string * Z))
    (s : server) (pid : string) (poll : Poll) (i : nat) (o : PollOption) :
  db s !! pid = Some poll → options poll !! i = Some o →
  NoDup voters.*1 →
  (∀ ip, ip ∈ voters.*1 → unrecorded v s pid ip) →
  let rs := ballots pid (VInt (Z.of_nat i)) voters in
  Forall (λ r, status r = 200) (replies v s rs) ∧
  length (replies v s rs) = length voters ∧
  ∃ poll', db (run v s rs) !! pid = Some poll' ∧
    options poll' =
      <[i := mkOption (text o) (votes o + Z.of_nat (length voters))]> (options poll) ∧
    totalVotes poll' = totalVotes poll + Z.of_nat (length voters) ∧
    (tally_ok poll → tally_ok poll').
Proof.
  revert s poll o.
  induction voters as [|[ip now] voters IH]; intros s poll o Hp Ho Hnd Hun.
  - simpl. split; [constructor|]. split; [done|]. exists poll. split; [done|].
    rewrite Z.add_0_r. split; [|by rewrite Z.add_0_r].
    destruct o. by rewrite list_insert_id.
  - cbv zeta. rewrite ballots_cons, replies_cons, run_cons.
    simpl in Hnd. apply NoDup_cons in Hnd as [Hnotin Hnd].
    destruct (vote_admitted v s pid poll i o ip now Hp Ho) as (Hr & Hdb & Hkeep).
    { apply Hun. simpl. apply list_elem_of_here. }
    set (s1 := (handle v s (Vote pid (VInt (Z.of_nat i)) ip now true)).1) in *.
    set (p1 := stored_doc v ip _) in *.
    assert (options p1 = <[i := mkOption (text o) (votes o + 1)]> (options poll) ∧
            totalVotes p1 = totalVotes poll + 1) as [Hopts Htot]
      by (subst p1; by destruct v).
    pose proof (lookup_lt_Some _ _ _ Ho) as Hlt.
    destruct (IH s1 p1 (mkOption (text o) (votes o + 1))) as (Hall & Hlen & poll' & Hp' & Ho' & Ht' & Hok).
    { by rewrite Hdb, lookup_insert_eq. }
    { rewrite Hopts. by apply list_lookup_insert_eq. }
    { done. }
    { intros ip' Hin. apply Hkeep; [by intros ->|].
      apply Hun. simpl. by apply list_elem_of_further. }
    split; [constructor; [by rewrite Hr | done]|].
    split; [simpl; by rewrite Hlen|].
    exists poll'. split; [done|]. simpl in Ho'. simpl length.
    rewrite Ho', Ht', Hopts, Htot, list_insert_insert_eq.
    split; [do 2 f_equal; lia|]. split; [lia|].
    intros Hpoll. apply Hok. unfold tally_ok in *.
    rewrite Hopts, Htot, (sum_votes_insert _ _ _ _ Ho). simpl. lia.
Qed.

Lemma serial_votes_all_counted_witness :
  Forall (λ r, status r = 200)
    (replies rate_limited demo
       (ballots "p1" (VInt (Z.of_nat 0)) [("x", 1000); ("y", 1001)])) ∧
  length (replies rate_limited demo
            (ballots "p1" (VInt (Z.of_nat 0)) [("x", 1000); ("y", 1001)])) = 2%nat ∧
  ∃ poll',
    db (run rate_limited demo
          (ballots "p1" (VInt (Z.of_nat 0)) [("x", 1000); ("y", 1001)])) !! "p1"
      = Some poll' ∧
    options poll' = <[0%nat := mkOption "A" (0 + Z.of_nat 2)]>
                      [mkOption "A" 0; mkOption "B" 0] ∧
    totalVotes poll' = 0 + Z.of_nat 2 ∧
    (tally_ok (mkPoll "p1" "Tea?" [mkOption "A" 0; mkOption "B" 0] [] 0 5) →
     tally_ok poll').
Proof.
  apply (serial_votes_all_counted rate_limited [("x", 1000); ("y", 1001)] demo "p1"
           (mkPoll "p1" "Tea?" [mkOption "A" 0; mkOption "B" 0] [] 0 5) 0
           (mkOption "A" 0)).
  - vm_compute. reflexivity.
  - reflexivity.
  - simpl. apply NoDup_cons. split; [|apply NoDup_singleton].
    intros Hx%list_elem_of_singleton. discriminate Hx.
  - intros ip _. vm_compute. reflexivity.
Defined.

Lemma save_own_document (d : gmap string Poll) (pid : string) (poll p' : Poll)
    (idx : jsval) :
  d !! pid = Some poll → castVote poll idx = Some p' →
  Interleaved.save d pid idx p' = <[pid := p']> d.
Proof.
  intros Hd (i & o & Hi & Ho & ->)%castVote_Some.
  pose proof (lookup_lt_Some _ _ _ Ho) as Hlt.
  unfold Interleaved.save. rewrite Hi. simpl.
  rewrite list_lookup_insert_eq by done.
  apply map_eq. intros k. rewrite lookup_alter, lookup_insert.
  case_decide; [|done]. rewrite Hd. simpl. do 2 f_equal.
  rewrite list_insert_alter. apply list_alter_ext; [|done].
  intros x Hx. by simplify_eq.
Qed.

(** A request that is resumed twice in a row, with nothing in between, does
    what the sequential handler [RateLimited.vote] does. *)
Lemma uninterrupted_resume (s : server) (pid : string) (idx : jsval) (ip : string)
    (now now' : Z) (ok0 ok : bool) :
  let st := Interleaved.resume s (Interleaved.AwaitFindOne pid idx ip) now ok0 in
  Interleaved.resume st.1 st.2 now' ok =
  ((RateLimited.vote s pid idx ip now ok).1,
   Interleaved.Answered (RateLimited.vote s pid idx ip now ok).2).
Proof.
  unfold RateLimited.vote. simpl.
  destruct (db s !! pid) as [poll|] eqn:Hp; [|done].
  destruct (invalidOption poll idx); [done|].
  destruct (RateLimited.check _ _ _ _) as [vt1 [rem|]]; [done|].
  destruct (castVote poll idx) as [p'|] eqn:Hc; [|done].
  simpl. destruct ok; [|done].
  by rewrite (save_own_document _ _ _ _ _ Hp Hc).
Qed.

(** With a schedule that lets the first request finish before the second
    starts, two requests in flight are two sequential votes. *)
Lemma run2_serial (s : server) (pid : string) (idx : jsval) (ip1 ip2 : string)
    (n1 n1' n2 n2' : Z) (a1 ok1 a2 ok2 : bool) :
  Interleaved.run2 s (Interleaved.AwaitFindOne pid idx ip1)
    (Interleaved.AwaitFindOne pid idx ip2)
    [(false, n1, a1); (false, n1', ok1); (true, n2, a2); (true, n2', ok2)] =
  let r1 := RateLimited.vote s pid idx ip1 n1 ok1 in
  let r2 := RateLimited.vote r1.1 pid idx ip2 n2 ok2 in
  (r2.1, Interleaved.Answered r1.2, Interleaved.Answered r2.2).
Proof.
  pose proof (uninterrupted_resume s pid idx ip1 n1 n1' a1 ok1) as H1.
  pose proof (uninterrupted_resume (RateLimited.vote s pid idx ip1 n1 ok1).1
                pid idx ip2 n2 n2' a2 ok2) as H2.
  cbv zeta in *. unfold Interleaved.run2.
  destruct (Interleaved.resume s _ n1 a1) as [s1 t1]. simpl in H1. rewrite H1.
  destruct (Interleaved.resume _ (Interleaved.AwaitFindOne pid idx ip2) n2 a2) as [s2 t2].
  simpl in H2. by rewrite H2.
Qed.

(** C2 as stated fails in the rate-limited server.  "x" and "y" vote for
    option 0 of a fresh two-option poll and both handlers get the poll from
    [findOne] before either saves.  Both are answered 200 with a tally that
    shows one vote, both broadcast that tally, and the stored count of the
    option ends at 1, not 2: the second save overwrote the first. *)
Lemma overlapping_votes_lose_update :
  let '(s', t1, t2) :=
    Interleaved.run2 demo (Interleaved.AwaitFindOne "p1" (VInt 0) "x")
      (Interleaved.AwaitFindOne "p1" (VInt 0) "y") overlap in
  option_votes demo "p1" 0 = Some 0 ∧
  t1 = Interleaved.Answered
         (mkResponse 200 (Recorded [mkOption "A" 1; mkOption "B" 0] 1)) ∧
  t2 = Interleaved.Answered
         (mkResponse 200 (Recorded [mkOption "A" 1; mkOption "B" 0] 1)) ∧
  option_votes s' "p1" 0 = Some 1 ∧
  option_votes s' "p1" 0 ≠ Some (0 + 2) ∧
  lastVote (voteTimestamps s') "p1" "x" = Some 1000 ∧
  lastVote (voteTimestamps s') "p1" "y" = Some 1001 ∧
  length (emitted s') = 2%nat.
Proof. vm_compute. repeat split; try reflexivity. discriminate. Qed.

(** The same overlap with votes for two different options: each save writes
    its own option's count and the total it computed from its snapshot, so
    both counts end at 1 while the stored total is 1. *)
Lemma overlapping_votes_break_total :
  let '(s', t1, t2) :=
    Interleaved.run2 demo (Interleaved.AwaitFindOne "p1" (VInt 0) "x")
      (Interleaved.AwaitFindOne "p1" (VInt 1) "y") overlap in
  db s' !! "p1" =
    Some (mkPoll "p1" "Tea?" [mkOption "A" 1; mkOption "B" 1] [] 1 5) ∧
  ¬ tally_ok (mkPoll "p1" "Tea?" [mkOption "A" 1; mkOption "B" 1] [] 1 5).
Proof. vm_compute. split; [reflexivity | discriminate]. Qed.

(** * Further properties of the servers *)

(** ** The identity of a client *)

Lemma first_segment_split (s : string) :
  ∃ rest, s = (first_segment s +:+ rest)%string ∧
    (rest = "" ∨ ∃ rest', rest = String ","%char rest').
Proof.
  induction s as [|c s (rest & Hs & Hrest)]; simpl.
  - exists "". by split; [|left].
  - destruct (Ascii.eqb_spec c ","%char) as [->|Hc]; simpl.
    + exists (String ","%char s). split; [done|]. right. by eexists.
    + exists rest. split; [|done]. rewrite Hs at 1. reflexivity.
Qed.

Lemma first_segment_no_comma (s : string) :
  ","%char ∉ String.list_ascii_of_string (first_segment s).
Proof.
  induction s as [|c s IH]; simpl; [apply not_elem_of_nil|].
  destruct (Ascii.eqb_spec c ","%char) as [->|Hc]; simpl; [apply not_elem_of_nil|].
  rewrite not_elem_of_cons. split; [congruence | done].
Qed.

Lemma truthy_Some (s : string) : truthy (Some s) = true ↔ s ≠ "".
Proof.
  unfold truthy. rewrite negb_true_iff. destruct (String.eqb_spec s ""); split; congruence.
Qed.

(** X1. When the request has an X-Forwarded-For header and the text before
    its first comma is not empty, that text is the client's identity,
    whatever X-Real-IP and the connection's own address are.  It is taken
    as it stands: the header starts with it, what follows (if anything)
    starts with a comma, and it contains no comma itself. *)
Theorem forwarded_for_wins (req : origin) (xff : string) :
  x_forwarded_for req = Some xff → first_segment xff ≠ "" →
  getClientIP req = Some (first_segment xff) ∧
  (∃ rest, xff = (first_segment xff +:+ rest)%string ∧
     (rest = "" ∨ ∃ rest', rest = String ","%char rest')) ∧
  ","%char ∉ String.list_ascii_of_string (first_segment xff).
Proof.
  intros Hx Hne. split; [|split].
  - unfold getClientIP, js_or. rewrite Hx.
    change (first_segment <$> Some xff) with (Some (first_segment xff)).
    by rewrite (proj2 (truthy_Some _) Hne).
  - apply first_segment_split.
  - apply first_segment_no_comma.
Qed.

Lemma forwarded_for_wins_witness :
  getClientIP (mkOrigin (Some "10.0.0.7, 172.16.0.1") (Some "192.168.1.1")
                 (Some "127.0.0.1") (Some "127.0.0.1")) = Some "10.0.0.7".
Proof.
  apply (forwarded_for_wins
           (mkOrigin (Some "10.0.0.7, 172.16.0.1") (Some "192.168.1.1")
              (Some "127.0.0.1") (Some "127.0.0.1")) "10.0.0.7, 172.16.0.1");
    [reflexivity | vm_compute; discriminate].
Defined.

(** X2. The sources are tried in order and an empty one counts as missing:
    the identity is a non-empty string exactly when the text before the
    first comma of X-Forwarded-For, X-Real-IP, [req.connection.remoteAddress]
    or [req.socket.remoteAddress] is one; X-Real-IP is used when the
    forwarded header is absent, empty or starts with a comma, the
    connection's address when X-Real-IP is missing too; and when nothing is
    usable the result is whatever [req.socket.remoteAddress] holds,
    [undefined] or [""] included. *)
Theorem getClientIP_fallback (req : origin) :
  (truthy (getClientIP req) = true ↔
     truthy (first_segment <$> x_forwarded_for req) = true ∨
     truthy (x_real_ip req) = true ∨
     truthy (connection_remoteAddress req) = true ∨
     truthy (socket_remoteAddress req) = true) ∧
  (truthy (first_segment <$> x_forwarded_for req) = false →
     (truthy (x_real_ip req) = true → getClientIP req = x_real_ip req) ∧
     (truthy (x_real_ip req) = false →
        (truthy (connection_remoteAddress req) = true →
           getClientIP req = connection_remoteAddress req) ∧
        (truthy (connection_remoteAddress req) = false →
           getClientIP req = socket_remoteAddress req))) ∧
  (x_forwarded_for req = None ∨ x_forwarded_for req = Some "" ∨
   (∃ rest, x_forwarded_for req = Some (String ","%char rest)) →
   truthy (first_segment <$> x_forwarded_for req) = false).
Proof.
  unfold getClientIP, js_or. split; [|split].
  - destruct (truthy (first_segment <$> x_forwarded_for req)) eqn:H1; [tauto|].
    destruct (truthy (x_real_ip req)) eqn:H2; [tauto|].
    destruct (truthy (connection_remoteAddress req)) eqn:H3; [tauto|].
    split; [tauto|]. intros [?|[?|[?|?]]]; congruence.
  - intros ->. split; [by intros ->|]. intros ->. split; by intros ->.
  - intros [->|[->|[rest ->]]]; reflexivity.
Qed.

(** ** Creating and reading a poll *)

(** X4. A poll that was just created (201) can be read back: GET of the
    new identifier answers 200 with that identifier, one option for each
    option sent, every count and the total at 0 and, in the one-shot server,
    [hasVoted] false for every client.  Before the creation the same GET was
    a 404, and the GET of any other identifier answers as it did before. *)
Theorem created_poll_is_served (v : variant) (s : server) (newId : string)
    (q : option string) (opts : option (list string)) (now : Z) (ok : bool)
    (client : option string) :
  status (createPoll s newId q opts now ok).2 = 201 →
  let s' := (createPoll s newId q opts now ok).1 in
  (createPoll s newId q opts now ok).2 = mkResponse 201 (Created newId) ∧
  getPoll v s newId client true = FetchError 404 "Poll not found" ∧
  (∃ view, getPoll v s' newId client true = FetchOk view ∧
     view_pollId view = newId ∧ view_totalVotes view = 0 ∧
     Forall (λ o, votes o = 0) (view_options view) ∧
     (∀ os, opts = Some os → length (view_options view) = length os) ∧
     view_hasVoted view = match v with one_shot => Some false | rate_limited => None end) ∧
  (∀ pid, pid ≠ newId → getPoll v s' pid client true = getPoll v s pid client true).
Proof.
  intros H201.
  destruct (create_cases s newId q opts now ok) as [[Hne _] | H]; [done|].
  destruct H as (_ & -> & Hfree & qt & os & -> & -> & Hq & Hl & Hs').
  cbv zeta. rewrite Hs'. split; [|split; [|split]].
  - unfold createPoll. rewrite decide_False by done.
    rewrite decide_False by lia. by rewrite Hfree.
  - unfold getPoll. by rewrite Hfree.
  - unfold getPoll; simpl. rewrite lookup_insert_eq. eexists. split; [done|]. simpl.
    split; [done|]. split; [done|]. split; [|split].
    + apply Forall_forall. by intros o (t & -> & _)%list_elem_of_fmap.
    + intros os' [= <-]. apply length_map.
    + destruct v; [|done]. f_equal. by destruct client.
  - intros pid Hne. unfold getPoll; simpl. by rewrite lookup_insert_ne.
Qed.

Lemma created_poll_is_served_witness :
  ∃ view, getPoll one_shot demo "p1" (Some "x") true = FetchOk view ∧
    view_pollId view = "p1" ∧ view_totalVotes view = 0 ∧
    Forall (λ o, votes o = 0) (view_options view) ∧
    (∀ os, Some ["A"; "B"] = Some os → length (view_options view) = length os) ∧
    view_hasVoted view = Some false.
Proof.
  exact (proj1 (proj2 (proj2
    (created_poll_is_served one_shot init "p1" (Some "Tea?") (Some ["A"; "B"])
       5 true (Some "x") ltac:(reflexivity))))).
Defined.

(** X5. When a vote handler ran from its [findOne] to its response with no
    other handler's save in between (requests handled one at a time) and
    answered 200, GET of that poll returns exactly the options and total
    that the vote's response and its broadcast (the last entry of the log)
    carried, the total being one more than what GET returned before; in the
    one-shot server GET then reports [hasVoted] true to the voter. *)
Theorem admitted_vote_is_served (v : variant) (s : server) (pid : string)
    (idx : jsval) (ip : string) (now : Z) (ok : bool) (client : option string) :
  status (handle v s (Vote pid idx ip now ok)).2 = 200 →
  let s' := (handle v s (Vote pid idx ip now ok)).1 in
  ∃ os t before after,
    (handle v s (Vote pid idx ip now ok)).2 = mkResponse 200 (Recorded os t) ∧
    last (emitted s') = Some (pid, (os, t)) ∧
    getPoll v s pid client true = FetchOk before ∧
    getPoll v s' pid client true = FetchOk after ∧
    view_options after = os ∧ view_totalVotes after = t ∧
    t = view_totalVotes before + 1 ∧
    (v = one_shot → ∃ mine, getPoll v s' pid (Some ip) true = FetchOk mine ∧
                     view_hasVoted mine = Some true).
Proof.
  intros H200.
  destruct (vote_cases v s pid idx ip now ok) as [(Hne & _) | H]; [done|].
  destruct H as (_ & _ & poll & p' & Hp & _ & Hc & _ & Hdb & Hem & Hjs).
  cbv zeta. eexists _, _, _, _. split.
  { destruct (handle v s (Vote pid idx ip now ok)).2 as [st js].
    simpl in *. subst st js. done. }
  split; [by rewrite Hem, last_snoc|].
  unfold getPoll. rewrite Hdb, Hp, lookup_insert_eq.
  split; [done|]. split; [done|]. split; [done|]. split; [done|].
  destruct (castVote_tally _ _ _ Hc) as (_ & Ht & Hv).
  split; [simpl; destruct v; simpl; lia|].
  intros ->. eexists. split; [done|]. simpl. f_equal.
  apply bool_decide_eq_true. rewrite elem_of_app, list_elem_of_singleton. by right.
Qed.

Lemma admitted_vote_is_served_witness :
  ∃ os t before after,
    (handle one_shot demo (Vote "p1" (VInt 1) "x" 1000 true)).2 =
      mkResponse 200 (Recorded os t) ∧
    last (emitted (handle one_shot demo (Vote "p1" (VInt 1) "x" 1000 true)).1) =
      Some ("p1", (os, t)) ∧
    getPoll one_shot demo "p1" None true = FetchOk before ∧
    getPoll one_shot (handle one_shot demo (Vote "p1" (VInt 1) "x" 1000 true)).1
      "p1" None true = FetchOk after ∧
    view_options after = os ∧ view_totalVotes after = t ∧
    t = view_totalVotes before + 1 ∧
    (one_shot = one_shot →
     ∃ mine, getPoll one_shot
               (handle one_shot demo (Vote "p1" (VInt 1) "x" 1000 true)).1
               "p1" (Some "x") true = FetchOk mine ∧
             view_hasVoted mine = Some true).
Proof.
  apply (admitted_vote_is_served one_shot demo "p1" (VInt 1) "x" 1000 true None).
  vm_compute. reflexivity.
Defined.

(** X6. In the one-shot server GET and vote agree about a client: GET
    answers 404 exactly when a vote on that poll would; when GET reports
    [hasVoted] true, every vote of that client on the poll is refused (403,
    or 400 for an index out of range) and changes nothing; and a vote is
    answered 403 only if GET reports [hasVoted] true. *)
Theorem hasVoted_predicts_refusal (s : server) (pid ip : string) (idx : jsval)
    (ok : bool) :
  (getPoll one_shot s pid (Some ip) true = FetchError 404 "Poll not found" ↔
     status (OneShot.vote s pid idx ip ok).2 = 404) ∧
  (∀ view, getPoll one_shot s pid (Some ip) true = FetchOk view →
     (view_hasVoted view = Some true →
        status (OneShot.vote s pid idx ip ok).2 ∈ [400; 403] ∧
        (OneShot.vote s pid idx ip ok).1 = s) ∧
     (status (OneShot.vote s pid idx ip ok).2 = 403 →
        view_hasVoted view = Some true)).
Proof.
  unfold getPoll, OneShot.vote.
  destruct (db s !! pid) as [poll|]; simpl; [|split; [done | by intros]].
  split.
  - split; [done|]. destruct (invalidOption poll idx); simpl; [done|].
    case_decide; simpl; [done|].
    destruct (castVote poll idx); [destruct ok|]; done.
  - intros view [= <-]; simpl. split.
    + intros [= Hin%bool_decide_eq_true].
      destruct (invalidOption poll idx); simpl; [split; [in_list | done]|].
      rewrite decide_True by done. simpl. split; [in_list | done].
    + destruct (invalidOption poll idx); simpl; [done|].
      case_decide as Hin; simpl.
      * intros _. f_equal. by apply bool_decide_eq_true.
      * destruct (castVote poll idx); [destruct ok|]; done.
Qed.

(** ** What is kept about the stored polls *)

Lemma castVote_well_formed (v : variant) (pid ip : string) (poll p' : Poll)
    (idx : jsval) :
  well_formed pid poll → castVote poll idx = Some p' →
  well_formed pid (stored_doc v ip p').
Proof.
  intros (Hid & Hq & Hlen & Hvotes & Htot) (i & o & _ & Ho & ->)%castVote_Some.
  assert (0 ≤ votes o) by (by apply (Forall_lookup_1 _ _ _ _ Hvotes Ho)).
  unfold well_formed. destruct v; simpl; rewrite length_insert;
    (repeat split; [done | done | done | apply Forall_insert; [done | simpl; lia] | lia]).
Qed.

Lemma grown_refl (p : Poll) : grown p p.
Proof.
  unfold grown. repeat split; try done.
  apply Forall_Forall2_diag, Forall_true. intros. lia.
Qed.

Lemma grown_trans (p q r : Poll) : grown p q → grown q r → grown p r.
Proof.
  intros (H1 & H2 & H3 & H4 & H5 & H6 & H7) (G1 & G2 & G3 & G4 & G5 & G6 & G7).
  unfold grown. repeat split; try congruence; try lia; [|by etrans].
  eapply Forall2_trans; [|exact H5|exact G5]. simpl. intros. lia.
Qed.

Lemma castVote_grown (v : variant) (ip : string) (poll p' : Poll) (idx : jsval) :
  castVote poll idx = Some p' → grown poll (stored_doc v ip p').
Proof.
  intros (i & o & _ & Ho & ->)%castVote_Some.
  assert (text <$> <[i := mkOption (text o) (votes o + 1)]> (options poll) =
          text <$> options poll) as Htexts.
  { rewrite list_fmap_insert. simpl. apply list_insert_id.
    by rewrite list_lookup_fmap, Ho. }
  assert (Forall2 (λ a b, votes a ≤ votes b) (options poll)
            (<[i := mkOption (text o) (votes o + 1)]> (options poll))) as Hvotes.
  { rewrite <- (list_insert_id (options poll) i o Ho) at 1.
    apply Forall2_insert; [|simpl; lia].
    apply Forall_Forall2_diag, Forall_true. intros. lia. }
  unfold grown. destruct v; simpl; repeat split; try done; try lia.
  by apply prefix_app_r.
Qed.

Lemma handle_keeps_polls (v : variant) (s : server) (r : request) (pid : string)
    (poll : Poll) :
  db s !! pid = Some poll →
  ∃ poll', db (handle v s r).1 !! pid = Some poll' ∧ grown poll poll' ∧
    (pid ≠ target r → poll' = poll).
Proof.
  intros Hp. destruct r as [newId q opts now ok | pid' idx ip now ok].
  - simpl. destruct (create_cases s newId q opts now ok) as [[_ ->] | H].
    + exists poll. split; [done|]. split; [apply grown_refl | done].
    + destruct H as (_ & _ & Hfree & qt & os & _ & _ & _ & _ & ->); simpl.
      exists poll. rewrite lookup_insert_ne by congruence.
      split; [done|]. split; [apply grown_refl | done].
  - destruct (vote_cases v s pid' idx ip now ok) as [(_ & Hdb & _) | H].
    + exists poll. rewrite Hdb. split; [done|]. split; [apply grown_refl | done].
    + destruct H as (_ & _ & p0 & p' & Hp0 & _ & Hc & _ & -> & _).
      destruct (decide (pid' = pid)) as [->|Hne].
      * rewrite lookup_insert_eq. eexists. split; [done|]. simplify_eq.
        split; [by eapply castVote_grown | simpl; done].
      * exists poll. rewrite lookup_insert_ne by done.
        split; [done|]. split; [apply grown_refl | done].
Qed.

(** X7. In either server every stored poll of a reachable state is stored
    under its own [pollId], has a non-empty question, at least two options,
    no negative count and a non-negative total; in the rate-limited server
    its [votedIPs] list is always empty (that server never writes it). *)
Theorem stored_polls_well_formed (v : variant) (s : server) :
  reachable v s →
  ∀ pid poll, db s !! pid = Some poll →
    well_formed pid poll ∧ (v = rate_limited → votedIPs poll = []).
Proof.
  intros Hs. induction Hs as [| s r _ IH | s now _ _ IH]; [| |exact IH].
  { intros pid poll. simpl. by rewrite lookup_empty. }
  intros pid poll. destruct r as [newId q opts now ok | pid' idx ip now ok].
  - simpl. destruct (create_cases s newId q opts now ok) as [[_ ->] | H]; [apply IH|].
    destruct H as (_ & _ & _ & qt & os & _ & _ & Hq & Hl & ->); simpl.
    rewrite lookup_insert. case_decide as Hid; [|apply IH].
    intros [= <-]. subst pid. unfold well_formed; simpl. rewrite length_map.
    repeat split; try done.
    apply Forall_forall. intros o (t & -> & _)%list_elem_of_fmap. simpl. lia.
  - destruct (vote_cases v s pid' idx ip now ok) as [(_ & -> & _) | H]; [apply IH|].
    destruct H as (_ & _ & p0 & p' & Hp0 & _ & Hc & _ & -> & _).
    rewrite lookup_insert. case_decide as Hid; [|apply IH].
    intros [= <-]. subst pid'. destruct (IH _ _ Hp0) as [Hwf Hips].
    split; [by eapply castVote_well_formed|].
    intros ->. simpl. destruct (castVote_tally _ _ _ Hc) as (_ & _ & ->). by apply Hips.
Qed.

Lemma stored_polls_well_formed_witness :
  well_formed "p1" (mkPoll "p1" "Tea?" [mkOption "A" 1; mkOption "B" 1] [] 2 5) ∧
  (rate_limited = rate_limited →
   votedIPs (mkPoll "p1" "Tea?" [mkOption "A" 1; mkOption "B" 1] [] 2 5) = []).
Proof.
  apply (stored_polls_well_formed rate_limited (demo_voted rate_limited)
           (run_reachable rate_limited _ _ (demo_reachable rate_limited)) "p1").
  vm_compute. reflexivity.
Defined.

(** X8. Whatever create and vote requests either server handles, as long
    as it handles them one at a time, a stored poll stays stored under the
    same identifier with the same question, creation time and option texts
    in the same order (so an option index keeps its meaning); no count and
    no total goes down, [votedIPs] is only appended to, and the polls a
    request is not addressed to are returned unchanged.  (A save that
    overlaps other votes can lower a count: [stale_save_lowers_count].) *)
Theorem polls_only_grow (v : variant) (rs : list request) (s : server)
    (pid : string) (poll : Poll) :
  db s !! pid = Some poll →
  ∃ poll', db (run v s rs) !! pid = Some poll' ∧ grown poll poll' ∧
    (Forall (λ r, target r ≠ pid) rs → poll' = poll).
Proof.
  revert s poll. induction rs as [|r rs IH]; intros s poll Hp.
  - exists poll. split; [done|]. split; [apply grown_refl | done].
  - destruct (handle_keeps_polls v s r pid poll Hp) as (p1 & Hp1 & Hg1 & Hsame).
    destruct (IH _ _ Hp1) as (p2 & Hp2 & Hg2 & Hsame2).
    exists p2. split; [done|]. split; [by eapply grown_trans|].
    intros [Hr Hrs]%Forall_cons. rewrite Hsame2 by done. apply Hsame. congruence.
Qed.

Lemma polls_only_grow_witness :
  ∃ poll',
    db (run one_shot demo
          [Vote "p1" (VInt 0) "x" 1000 true;
           CreatePoll "p1" (Some "Coffee?") (Some ["C"; "D"]) 7 true]) !! "p1"
      = Some poll' ∧
    grown (mkPoll "p1" "Tea?" [mkOption "A" 0; mkOption "B" 0] [] 0 5) poll' ∧
    (Forall (λ r, target r ≠ "p1")
       [Vote "p1" (VInt 0) "x" 1000 true;
        CreatePoll "p1" (Some "Coffee?") (Some ["C"; "D"]) 7 true] →
     poll' = mkPoll "p1" "Tea?" [mkOption "A" 0; mkOption "B" 0] [] 0 5).
Proof.
  apply (polls_only_grow one_shot
           [Vote "p1" (VInt 0) "x" 1000 true;
            CreatePoll "p1" (Some "Coffee?") (Some ["C"; "D"]) 7 true] demo "p1").
  vm_compute. reflexivity.
Defined.

(** ** The rate limiter's records *)

Lemma check_fst (vt : gmap string (gmap string Z)) (pid ip : string) (now : Z) :
  (RateLimited.check vt pid ip now).1 =
  match vt !! pid with None => <[pid := ∅]> vt | Some _ => vt end.
Proof.
  unfold RateLimited.check. destruct (vt !! pid) as [m|] eqn:Hm.
  - rewrite Hm; simpl. destruct (m !! ip); [destruct (_ && _)|]; done.
  - rewrite lookup_insert_eq; simpl. by rewrite lookup_empty.
Qed.

(** What a vote request leaves in [voteTimestamps]: nothing new, or the
    timestamp of this request, written once the check has admitted it. *)
Lemma vote_guard (v : variant) (s : server) (pid : string) (idx : jsval)
    (ip : string) (now : Z) (ok : bool) :
  let s' := (handle v s (Vote pid idx ip now ok)).1 in
  voteTimestamps s' = voteTimestamps s ∨
  (v = rate_limited ∧ is_Some (db s !! pid) ∧
   (RateLimited.check (voteTimestamps s) pid ip now).2 = None ∧
   voteTimestamps s' =
     RateLimited.record (RateLimited.check (voteTimestamps s) pid ip now).1 pid ip now).
Proof.
  destruct v; simpl.
  - left. unfold OneShot.vote. destruct (db s !! pid) as [poll|]; [|done].
    destruct (invalidOption poll idx); [done|]. case_decide; [done|].
    destruct (castVote poll idx); [destruct ok|]; done.
  - unfold RateLimited.vote. destruct (db s !! pid) as [poll|]; [|by left].
    destruct (invalidOption poll idx); [by left|].
    destruct (check_cases (voteTimestamps s) pid ip now) as (vt1 & o & Hchk & Hvt).
    rewrite Hchk. destruct o as [rem|]; [left; simpl; by apply Hvt|].
    right. split; [done|]. split; [by eexists|]. split; [done|].
    destruct (castVote poll idx); [destruct ok|]; done.
Qed.

Lemma cleanup_lookup (now : Z) (vt : gmap string (gmap string Z)) (pid : string)
    (m : gmap string Z) :
  RateLimited.cleanup now vt !! pid = Some m →
  m ≠ ∅ ∧ ∃ m0, vt !! pid = Some m0 ∧
    m = filter (λ e : string * Z, ¬ now - e.2 > RateLimited.RATE_LIMIT_WINDOW * 2) m0.
Proof.
  unfold RateLimited.cleanup. rewrite lookup_omap.
  destruct (vt !! pid) as [m0|]; simpl; [|done].
  case_decide as Hsz; [done|]. intros [= <-]. split; [|by exists m0].
  intros Hempty. apply Hsz. by rewrite Hempty, map_size_empty.
Qed.

(** X9. After the sweep at time [now] the rate limiter holds exactly the
    timestamps it held before that are at most twice the window old, each
    unchanged, and no poll is left with an empty map: the memory it keeps is
    one entry per client that voted within the last two windows. *)
Theorem cleanup_keeps_recent (now : Z) (vt : gmap string (gmap string Z)) :
  (∀ pid ip t,
     lastVote (RateLimited.cleanup now vt) pid ip = Some t ↔
     lastVote vt pid ip = Some t ∧ now - t ≤ RateLimited.RATE_LIMIT_WINDOW * 2) ∧
  (∀ pid m, RateLimited.cleanup now vt !! pid = Some m → m ≠ ∅) ∧
  (∀ pid, vt !! pid = None → RateLimited.cleanup now vt !! pid = None).
Proof.
  split; [|split].
  - intros pid ip t. rewrite lastVote_cleanup.
    destruct (lastVote vt pid ip) as [t0|]; simpl; [|by split; [|intros []]].
    case_decide; split; try done.
    + intros [[= ->] ?]. lia.
    + intros [= ->]. split; [done | lia].
    + by intros [[= ->] _].
  - intros pid m Hm. by apply cleanup_lookup in Hm as [? _].
  - intros pid Hp. unfold RateLimited.cleanup. by rewrite lookup_omap, Hp.
Qed.

(** X10. Sweeps compose: a sweep at [now'] after a sweep at an earlier (or
    the same) time [now] leaves exactly what a single sweep at [now'] would
    leave; in particular running the sweep twice at the same time is the
    same as running it once. *)
Theorem cleanup_twice (now now' : Z) (vt : gmap string (gmap string Z)) :
  now ≤ now' →
  RateLimited.cleanup now' (RateLimited.cleanup now vt) = RateLimited.cleanup now' vt.
Proof.
  intros Hle. apply map_eq. intros pid.
  unfold RateLimited.cleanup. rewrite !lookup_omap.
  destruct (vt !! pid) as [m|]; simpl; [|done].
  set (P := λ e : string * Z, ¬ now - e.2 > RateLimited.RATE_LIMIT_WINDOW * 2).
  set (P' := λ e : string * Z, ¬ now' - e.2 > RateLimited.RATE_LIMIT_WINDOW * 2).
  assert (filter P' (filter P m) = filter P' m) as Hff.
  { rewrite map_filter_filter. apply map_filter_ext.
    intros i x _. unfold P, P'. simpl. lia. }
  destruct (decide (size (filter P m) = 0%nat)) as [Hsz|Hsz]; simpl.
  - apply map_size_empty_iff in Hsz.
    rewrite <- Hff, Hsz, map_filter_empty. by rewrite decide_True.
  - by rewrite Hff.
Qed.

Lemma cleanup_twice_witness :
  RateLimited.cleanup 200000
    (RateLimited.cleanup 100000 (voteTimestamps (demo_voted rate_limited))) =
  RateLimited.cleanup 200000 (voteTimestamps (demo_voted rate_limited)).
Proof. apply (cleanup_twice 100000 200000). lia. Defined.

(** X11. The rate limit around an admitted vote.  After the rate-limited
    server admitted a vote of [ip] on [pid] at time [now] (not 0), a further
    vote of [ip] on [pid] with an index that passes the range check, made
    less than 60000 ms later, is answered 429 with the whole seconds left
    and changes nothing, whatever its save would do; made 60000 ms later or
    more, the same vote is admitted again when its save succeeds. *)
Theorem vote_again_after_window (s : server) (pid : string) (idx : jsval)
    (ip : string) (now : Z) (ok : bool) (now' : Z) (ok' : bool) :
  status (RateLimited.vote s pid idx ip now ok).2 = 200 → now ≠ 0 →
  let s1 := (RateLimited.vote s pid idx ip now ok).1 in
  (now' - now < RateLimited.RATE_LIMIT_WINDOW →
     RateLimited.vote s1 pid idx ip now' ok' =
       (s1, mkResponse 429
              (Wait (RateLimited.ceil_seconds
                       (RateLimited.RATE_LIMIT_WINDOW - (now' - now)))))) ∧
  (RateLimited.RATE_LIMIT_WINDOW ≤ now' - now →
     status (RateLimited.vote s1 pid idx ip now' true).2 = 200).
Proof.
  intros H200 Hnz s1.
  destruct (vote_cases rate_limited s pid idx ip now ok) as [(Hne & _) | H]; [done|].
  destruct H as (_ & _ & poll & p' & Hp & Hi & Hc & _ & Hdb & _).
  assert (lastVote (voteTimestamps s1) pid ip = Some now) as Hlast.
  { subst s1. revert H200. unfold RateLimited.vote. rewrite Hp, Hi, Hc.
    destruct (RateLimited.check _ _ _ _) as [vt1 [rem|]]; [done|].
    destruct ok; [|done]. intros _. simpl.
    rewrite lastVote_record. by rewrite decide_True. }
  assert (db s1 !! pid = Some p') as Hp1.
  { subst s1. simpl in Hdb. by rewrite Hdb, lookup_insert_eq. }
  destruct (castVote_Some _ _ _ Hc) as (i & o & Hidx & Ho & Hp').
  assert (invalidOption p' idx = false) as Hi'.
  { revert Hi. unfold invalidOption. rewrite Hp'. simpl. by rewrite length_insert. }
  pose proof (check_result (voteTimestamps s1) pid ip now') as Hres.
  rewrite Hlast in Hres.
  assert (negb (now =? 0) = true) as Hnz' by (apply negb_true_iff; lia).
  rewrite Hnz' in Hres. simpl in Hres.
  split; intros Hw.
  - pose proof (vote_rate_limited s1 pid p' idx ip now' ok' Hp1 Hi') as Hv.
    rewrite Hres in Hv.
    destruct (Z.ltb_spec (now' - now) RateLimited.RATE_LIMIT_WINDOW); [done | lia].
  - destruct (Z.ltb_spec (now' - now) RateLimited.RATE_LIMIT_WINDOW); [lia|].
    unfold RateLimited.vote. rewrite Hp1, Hi'.
    destruct (RateLimited.check _ _ _ _) as [vt1 res]. simpl in Hres. subst res.
    assert (is_Some (castVote p' idx)) as [p'' ->]; [|done].
    unfold castVote. rewrite Hidx. simpl. rewrite Hp'. simpl.
    rewrite list_lookup_insert_eq by (by eapply lookup_lt_Some). by eexists.
Qed.

Lemma vote_again_after_window_witness :
  RateLimited.vote (RateLimited.vote demo "p1" (VInt 0) "x" 1000 true).1
    "p1" (VInt 0) "x" 31000 true =
    ((RateLimited.vote demo "p1" (VInt 0) "x" 1000 true).1,
     mkResponse 429
       (Wait (RateLimited.ceil_seconds (RateLimited.RATE_LIMIT_WINDOW - (31000 - 1000))))) ∧
  status (RateLimited.vote (RateLimited.vote demo "p1" (VInt 0) "x" 1000 true).1
            "p1" (VInt 0) "x" 61000 true).2 = 200.
Proof.
  split.
  - apply (vote_again_after_window demo "p1" (VInt 0) "x" 1000 true 31000 true);
      [vm_compute; reflexivity | lia | vm_compute; reflexivity].
  - apply (vote_again_after_window demo "p1" (VInt 0) "x" 1000 true 61000 true);
      [vm_compute; reflexivity | lia | vm_compute; discriminate].
Defined.

(** X12. A vote request touches one poll and one client only.  Whatever its
    outcome, in either server, every other poll is stored as before; the
    rate limiter's record of every other (poll, client) pair is as before
    (the one-shot server does not touch the rate limiter at all); in the
    one-shot server no other client becomes marked as having voted; and at
    most one broadcast is added, addressed to the poll voted on. *)
Theorem vote_touches_one_pair (v : variant) (s : server) (pid : string)
    (idx : jsval) (ip : string) (now : Z) (ok : bool) :
  let s' := (handle v s (Vote pid idx ip now ok)).1 in
  (∀ pid', pid' ≠ pid → db s' !! pid' = db s !! pid') ∧
  (∀ pid' ip', pid' ≠ pid ∨ ip' ≠ ip →
     lastVote (voteTimestamps s') pid' ip' = lastVote (voteTimestamps s) pid' ip') ∧
  (v = one_shot → voteTimestamps s' = voteTimestamps s) ∧
  (∀ poll poll' ip', db s !! pid = Some poll → db s' !! pid = Some poll' →
     ip' ≠ ip → (ip' ∈ votedIPs poll' ↔ ip' ∈ votedIPs poll)) ∧
  (∃ new, emitted s' = emitted s ++ new ∧ (length new ≤ 1)%nat ∧
     Forall (λ e, e.1 = pid) new).
Proof.
  intros s'. subst s'. split; [|split; [|split; [|split]]].
  - intros pid' Hne.
    destruct (vote_cases v s pid idx ip now ok) as [(_ & -> & _) | H]; [done|].
    destruct H as (_ & _ & p0 & p' & _ & _ & _ & _ & -> & _).
    by rewrite lookup_insert_ne.
  - intros pid' ip' Hne.
    destruct (vote_guard v s pid idx ip now ok) as [-> | (_ & _ & _ & ->)]; [done|].
    rewrite lastVote_record, lastVote_check.
    rewrite decide_False; [done|]. intros [-> ->]. by destruct Hne.
  - intros ->. by destruct (vote_guard one_shot s pid idx ip now ok) as [? | [? _]].
  - intros poll poll' ip' Hp Hp' Hne.
    destruct (vote_cases v s pid idx ip now ok) as [(_ & Hdb & _) | H].
    + rewrite Hdb in Hp'. by simplify_eq.
    + destruct H as (_ & _ & p0 & p' & Hp0 & _ & Hc & _ & Hdb & _).
      rewrite Hdb, lookup_insert_eq in Hp'. simplify_eq.
      destruct (castVote_tally _ _ _ Hc) as (_ & _ & Hv).
      destruct v; simpl; rewrite Hv; [|done].
      rewrite elem_of_app, list_elem_of_singleton. tauto.
  - destruct (vote_cases v s pid idx ip now ok) as [(_ & _ & ->) | H].
    + exists []. rewrite app_nil_r. split; [done|]. split; [simpl; lia | constructor].
    + destruct H as (_ & _ & p0 & p' & _ & _ & _ & _ & _ & -> & _).
      eexists. split; [done|]. split; [simpl; lia|]. by repeat constructor.
Qed.

(** X13. In every reachable state of the rate-limited server the rate
    limiter only holds maps for polls that are stored, and none of them is
    empty; the one-shot server's rate limiter stays empty for ever. *)
Theorem guard_follows_polls (v : variant) (s : server) :
  reachable v s →
  (v = one_shot → voteTimestamps s = ∅) ∧
  (∀ pid m, voteTimestamps s !! pid = Some m → is_Some (db s !! pid) ∧ m ≠ ∅).
Proof.
  intros Hs. induction Hs as [| s r _ [IH1 IH2] | s now Hv _ [IH1 IH2]].
  - split; [done|]. intros pid m. simpl. by rewrite lookup_empty.
  - assert (∀ pid, is_Some (db s !! pid) → is_Some (db (handle v s r).1 !! pid)) as Hkeep.
    { intros pid [poll Hp].
      destruct (handle_keeps_polls v s r pid poll Hp) as (poll' & -> & _). by eexists. }
    destruct r as [newId q opts now ok | pid' idx ip now ok].
    + assert (voteTimestamps (handle v s (CreatePoll newId q opts now ok)).1 =
              voteTimestamps s) as Hvt.
      { simpl. destruct (create_cases s newId q opts now ok) as [[_ ->] | H]; [done|].
        by destruct H as (_ & _ & _ & qt & os & _ & _ & _ & _ & ->). }
      rewrite Hvt. split; [done|]. intros pid m Hm.
      destruct (IH2 pid m Hm) as [? ?]. split; [by apply Hkeep | done].
    + destruct (vote_guard v s pid' idx ip now ok) as [-> | (-> & Hdb & _ & ->)].
      * split; [done|]. intros pid m Hm.
        destruct (IH2 pid m Hm) as [? ?]. split; [by apply Hkeep | done].
      * split; [done|]. intros pid m. unfold RateLimited.record.
        rewrite lookup_insert. case_decide as Hpid.
        -- intros [= <-]. subst pid. split; [by apply Hkeep|]. apply insert_non_empty.
        -- rewrite check_fst. intros Hm.
           assert (voteTimestamps s !! pid = Some m) as Hm'.
           { destruct (voteTimestamps s !! pid') eqn:E; [done|].
             by rewrite lookup_insert_ne in Hm. }
           destruct (IH2 pid m Hm') as [? ?]. split; [by apply Hkeep | done].
  - split; [by subst v|]. intros pid m Hm. simpl in Hm.
    apply cleanup_lookup in Hm as (Hne & m0 & Hm0 & _).
    split; [|done]. simpl. by apply (IH2 pid m0).
Qed.

Lemma guard_follows_polls_witness :
  (rate_limited = one_shot → voteTimestamps (demo_voted rate_limited) = ∅) ∧
  (∀ pid m, voteTimestamps (demo_voted rate_limited) !! pid = Some m →
     is_Some (db (demo_voted rate_limited) !! pid) ∧ m ≠ ∅).
Proof.
  apply (guard_follows_polls rate_limited (demo_voted rate_limited)).
  apply run_reachable, demo_reachable.
Defined.

(** ** Broadcasts *)

(** X14. In every reachable state of either server the broadcasts sent to
    the room of a stored poll carry the totals 1, 2, ..., n in this order,
    where n is the poll's stored total: one broadcast for each counted vote
    and none besides; nothing was ever sent to an identifier that is not
    stored. *)
Theorem one_broadcast_per_vote (v : variant) (s : server) :
  reachable v s →
  ∀ pid,
    match db s !! pid with
    | Some poll =>
        0 ≤ totalVotes poll ∧
        totals_sent pid (emitted s) = seqZ 1 (totalVotes poll)
    | None => totals_sent pid (emitted s) = []
    end.
Proof.
  intros Hs. induction Hs as [| s r _ IH | s now _ _ IH]; [| |exact IH].
  { intros pid. simpl. by rewrite lookup_empty. }
  intros pid. specialize (IH pid).
  destruct r as [newId q opts now ok | pid' idx ip now ok].
  - simpl. destruct (create_cases s newId q opts now ok) as [[_ ->] | H]; [done|].
    destruct H as (_ & _ & Hfree & qt & os & _ & _ & _ & _ & ->); simpl.
    rewrite lookup_insert. case_decide as Hid; [|done].
    subst pid. rewrite Hfree in IH. simpl. by rewrite IH.
  - destruct (vote_cases v s pid' idx ip now ok) as [(_ & -> & ->) | H]; [done|].
    destruct H as (_ & _ & p0 & p' & Hp0 & _ & Hc & _ & -> & -> & _).
    unfold totals_sent in *. rewrite filter_app, fmap_app.
    destruct (castVote_tally _ _ _ Hc) as (_ & Ht & _).
    assert (totalVotes (stored_doc v ip p') = totalVotes p0 + 1) as Ht'
      by (destruct v; simpl; lia).
    rewrite lookup_insert. case_decide as Hid.
    + subst pid'. rewrite Hp0 in IH. destruct IH as [Hpos IH].
      rewrite filter_cons_True by done. rewrite filter_nil. simpl.
      rewrite Ht', IH. split; [lia|].
      rewrite (seqZ_app 1 (totalVotes p0) 1) by lia.
      change (seqZ (1 + totalVotes p0) 1) with [0 + (1 + totalVotes p0)].
      do 2 f_equal. lia.
    + rewrite filter_cons_False by (simpl; congruence).
      rewrite filter_nil, app_nil_r. exact IH.
Qed.

Lemma one_broadcast_per_vote_witness :
  0 ≤ 2 ∧ totals_sent "p1" (emitted (demo_voted one_shot)) = seqZ 1 2.
Proof.
  pose proof (one_broadcast_per_vote one_shot (demo_voted one_shot)
                (run_reachable one_shot _ _ (demo_reachable one_shot)) "p1") as H.
  vm_compute in H. vm_compute. exact H.
Defined.

(** ** The option index as a number *)

Lemma Qltb_lt (p q : Q) : Qltb p q = true ↔ (p < q)%Q.
Proof.
  unfold Qltb. rewrite negb_true_iff, <- not_true_iff_false, Qle_bool_iff.
  split; [apply Qnot_le_lt | apply Qlt_not_le].
Qed.

Lemma invalidOption_number (poll : Poll) (q : Q) :
  invalidOption poll (VNumber (Finite q)) = true ↔
  (q < 0)%Q ∨ (inject_Z (Z.of_nat (length (options poll))) <= q)%Q.
Proof.
  unfold invalidOption, js_lt, js_ge; simpl. rewrite orb_true_iff.
  pose proof (Qltb_lt q (inject_Z 0)) as H0.
  pose proof (Qltb_lt q (inject_Z (Z.of_nat (length (options poll))))) as Hn.
  destruct (Qltb q (inject_Z 0)), (Qltb q (inject_Z (Z.of_nat (length (options poll))))).
  - split; [intros _; left; by apply H0 | by left].
  - split; [intros _; left; by apply H0 | by left].
  - split; [by intros [|] |]. intros [Hlt | Hle]; [by apply H0 in Hlt|].
    exfalso. apply (Qle_not_lt _ _ Hle). by apply Hn.
  - split; [|by right]. intros _. right. apply Qnot_lt_le. intros Hlt.
    by apply Hn in Hlt.
Qed.

Lemma array_index_number (q : Q) (i : nat) :
  array_index (VNumber (Finite q)) = Some i ↔ (q == inject_Z (Z.of_nat i))%Q.
Proof.
  unfold array_index. split.
  - case_decide as Hr; [|done]. destruct Hr as [Hden Hnum]. intros [= <-].
    rewrite Z2Nat.id by done. rewrite <- (Qred_correct q) at 1.
    destruct (Qred q) as [n d]. simpl in *. subst d. reflexivity.
  - intros Hq. apply Qred_complete in Hq.
    rewrite (Qred_identity (inject_Z (Z.of_nat i))) in Hq by (simpl; apply Z.gcd_1_r).
    rewrite Hq. simpl. rewrite decide_True by (split; [done | lia]).
    by rewrite Nat2Z.id.
Qed.

(** X15. How either server answers a vote whose [optionIndex] is a finite
    number [q], on an existing poll, from a client the abuse guard has
    nothing against, when the save succeeds: 400 exactly when [q < 0] or
    [q] is at least the number of options; 200 exactly when [q] is one of
    the whole numbers 0, ..., length - 1; and 500 in the remaining case, a
    fraction inside the range such as 0.5, which passes the range check and
    then finds no option. *)
Theorem numeric_index_outcome (v : variant) (s : server) (pid : string)
    (poll : Poll) (q : Q) (ip : string) (now : Z) :
  db s !! pid = Some poll → unrecorded v s pid ip →
  let r := (handle v s (Vote pid (VNumber (Finite q)) ip now true)).2 in
  (status r = 400 ↔
     (q < 0)%Q ∨ (inject_Z (Z.of_nat (length (options poll))) <= q)%Q) ∧
  (status r = 200 ↔
     ∃ i, (i < length (options poll))%nat ∧ (q == inject_Z (Z.of_nat i))%Q) ∧
  status r ∈ [200; 400; 500].
Proof.
  intros Hp Hun r.
  assert (is_Some (castVote poll (VNumber (Finite q))) ↔
          ∃ i, (i < length (options poll))%nat ∧ (q == inject_Z (Z.of_nat i))%Q) as Hcast.
  { unfold castVote. split.
    - intros [p' Hc].
      destruct (array_index (VNumber (Finite q))) as [i|] eqn:Hi; [|done].
      simpl in Hc. destruct (options poll !! i) as [o|] eqn:Ho; [|done].
      exists i. split; [by eapply lookup_lt_Some | by apply array_index_number].
    - intros (i & Hlt & Hq). apply array_index_number in Hq. rewrite Hq. simpl.
      destruct (lookup_lt_is_Some_2 (options poll) i Hlt) as [o ->]. by eexists. }
  assert ((∃ i, (i < length (options poll))%nat ∧ (q == inject_Z (Z.of_nat i))%Q) →
          invalidOption poll (VNumber (Finite q)) = false) as Hin.
  { intros (i & Hlt & Hq). apply not_true_is_false. rewrite invalidOption_number.
    intros [Hneg | Hbig].
    - rewrite Hq in Hneg. change 0%Q with (inject_Z 0) in Hneg.
      rewrite <- Zlt_Qlt in Hneg. lia.
    - rewrite Hq in Hbig. rewrite <- Zle_Qle in Hbig. lia. }
  pose proof (invalidOption_number poll q) as Hinv.
  assert (r = if invalidOption poll (VNumber (Finite q))
              then mkResponse 400 (Error "Invalid option")
              else match castVote poll (VNumber (Finite q)) with
                   | Some p' =>
                       mkResponse 200 (Recorded (options (stored_doc v ip p'))
                                         (totalVotes (stored_doc v ip p')))
                   | None => mkResponse 500 (Error "Failed to record vote")
                   end) as ->.
  { subst r. destruct v; simpl in *.
    - unfold OneShot.vote. rewrite Hp.
      destruct (invalidOption poll _); [done|].
      rewrite decide_False by (by apply Hun).
      by destruct (castVote poll _).
    - unfold RateLimited.vote. rewrite Hp.
      destruct (invalidOption poll _); [done|].
      pose proof (check_result (voteTimestamps s) pid ip now) as Hres.
      rewrite Hun in Hres.
      destruct (RateLimited.check _ _ _ _) as [vt1 res]. simpl in Hres. subst res.
      by destruct (castVote poll _). }
  destruct (invalidOption poll (VNumber (Finite q))) eqn:Hi; simpl.
  - split; [by split; [intros _; apply Hinv | ]|].
    split; [|in_list]. split; [done|]. intros Hex. by specialize (Hin Hex).
  - destruct (castVote poll (VNumber (Finite q))) as [p'|] eqn:Hc; simpl.
    + split; [split; [done | intros Hb; apply Hinv in Hb; done]|].
      split; [|in_list]. split; [|done]. intros _. apply Hcast. by eexists.
    + split; [split; [done | intros Hb; apply Hinv in Hb; done]|].
      split; [|in_list]. split; [done|]. intros Hex. apply Hcast in Hex as [? ?]. done.
Qed.

Lemma numeric_index_outcome_witness :
  status (handle rate_limited demo
            (Vote "p1" (VNumber (Finite (1 # 2))) "x" 1000 true)).2 ∈ [200; 400; 500] ∧
  (status (handle rate_limited demo
             (Vote "p1" (VNumber (Finite (1 # 2))) "x" 1000 true)).2 = 200 ↔
   ∃ i, (i < length [mkOption "A" 0; mkOption "B" 0])%nat ∧
        (1 # 2 == inject_Z (Z.of_nat i))%Q).
Proof.
  destruct (numeric_index_outcome rate_limited demo "p1"
              (mkPoll "p1" "Tea?" [mkOption "A" 0; mkOption "B" 0] [] 0 5)
              (1 # 2) "x" 1000) as (_ & H200 & Hin);
    [vm_compute; reflexivity | vm_compute; reflexivity |].
  split; [exact Hin | exact H200].
Defined.

(** ** Two requests of one client in flight *)

Lemma save_keeps_poll (d : gmap string Poll) (pid : string) (idx : jsval)
    (doc : Poll) (pid' : string) :
  is_Some (d !! pid') → is_Some (Interleaved.save d pid idx doc !! pid').
Proof.
  intros Hd. unfold Interleaved.save.
  destruct (array_index idx) as [i|]; [|done].
  destruct (options doc !! i) as [o|]; [|done].
  rewrite lookup_alter. case_decide; [|done]. subst pid'.
  destruct Hd as [x ->]. by eexists.
Qed.

(** X16. In the rate-limited server the check and the recording of the
    timestamp run in one uninterrupted block, before the handler waits for
    the save.  So once a vote of [ip] on [pid] has got as far as its save at
    time [now1] (not 0), a second request of [ip] for [pid] that is resumed
    from [findOne] less than 60000 ms later is refused, with 429 or, for
    an index out of range, 400, and changes nothing, whether the first
    request's save has completed, has failed or is still pending. *)
Theorem same_client_cannot_race (s s1 : server) (pid : string) (idx1 idx2 : jsval)
    (ip : string) (now1 now2 : Z) (a1 a2 : bool) (doc : Poll)
    (finished : bool) (n : Z) (ok : bool) :
  Interleaved.resume s (Interleaved.AwaitFindOne pid idx1 ip) now1 a1 =
    (s1, Interleaved.AwaitSave pid idx1 doc) →
  now1 ≠ 0 → now2 - now1 < RateLimited.RATE_LIMIT_WINDOW →
  let s2 := if finished
            then (Interleaved.resume s1 (Interleaved.AwaitSave pid idx1 doc) n ok).1
            else s1 in
  ∃ r, Interleaved.resume s2 (Interleaved.AwaitFindOne pid idx2 ip) now2 a2 =
         (s2, Interleaved.Answered r) ∧
       status r ∈ [400; 429].
Proof.
  intros Hfirst Hnz Hw s2.
  assert (is_Some (db s1 !! pid) ∧ lastVote (voteTimestamps s1) pid ip = Some now1)
    as [Hdb1 Hlast1].
  { revert Hfirst. simpl. destruct (db s !! pid) as [poll|] eqn:Hp; [|done].
    destruct (invalidOption poll idx1); [done|].
    destruct (RateLimited.check _ _ _ _) as [vt1 [rem|]]; [done|].
    destruct (castVote poll idx1); [|done]. intros [= <- _]. simpl.
    split; [by eexists|]. rewrite lastVote_record. by rewrite decide_True. }
  assert (is_Some (db s2 !! pid) ∧ voteTimestamps s2 = voteTimestamps s1) as [[poll Hp2] Hvt2].
  { subst s2. destruct finished; [|done]. simpl. destruct ok; [|done]. simpl.
    split; [by apply save_keeps_poll | done]. }
  simpl. rewrite Hp2.
  destruct (invalidOption poll idx2).
  { eexists. split; [done|]. simpl. in_list. }
  destruct (check_cases (voteTimestamps s2) pid ip now2) as (vt1 & o & Hchk & Hsame).
  pose proof (check_result (voteTimestamps s2) pid ip now2) as Hres.
  rewrite Hchk, Hvt2, Hlast1 in Hres. simpl in Hres.
  assert (negb (now1 =? 0) = true) as Hnz' by (apply negb_true_iff; lia).
  rewrite Hnz' in Hres. simpl in Hres.
  destruct (Z.ltb_spec (now2 - now1) RateLimited.RATE_LIMIT_WINDOW); [|lia].
  rewrite Hchk. subst o. rewrite Hsame by done.
  eexists. split; [by destruct s2|]. simpl. in_list.
Qed.

Lemma same_client_cannot_race_witness :
  ∃ r, Interleaved.resume
         (Interleaved.resume demo (Interleaved.AwaitFindOne "p1" (VInt 0) "x") 1000 true).1
         (Interleaved.AwaitFindOne "p1" (VInt 1) "x") 1001 true =
         ((Interleaved.resume demo (Interleaved.AwaitFindOne "p1" (VInt 0) "x") 1000 true).1,
          Interleaved.Answered r) ∧
       status r ∈ [400; 429].
Proof.
  apply (same_client_cannot_race demo _ "p1" (VInt 0) (VInt 1) "x" 1000 1001 true true
           (mkPoll "p1" "Tea?" [mkOption "A" 1; mkOption "B" 0] [] 1 5) false 0 true);
    [vm_compute; reflexivity | lia | vm_compute; reflexivity].
Defined.

(** ** What subscribers see *)

(** X17. In every state either server reaches by handling its requests
    one at a time, the votes carrying an [optionIndex] that is absent,
    [null], a boolean or a number, every broadcast in the log carries a
    tally whose total is the sum of its option counts and is positive, and
    whose options carry the texts of the poll stored under the identifier
    it was addressed to. *)
Theorem broadcasts_are_consistent (v : variant) (s : server) :
  reachable v s →
  Forall (λ e, e.2.2 = sum_votes e.2.1 ∧ 0 < e.2.2 ∧
               ∃ poll, db s !! e.1 = Some poll ∧ text <$> e.2.1 = text <$> options poll)
    (emitted s).
Proof.
  intros Hs. induction Hs as [| s r Hs IH | s now _ _ IH]; [constructor| |exact IH].
  assert (Forall (λ e, e.2.2 = sum_votes e.2.1 ∧ 0 < e.2.2 ∧
                       ∃ poll, db (handle v s r).1 !! e.1 = Some poll ∧
                               text <$> e.2.1 = text <$> options poll) (emitted s)) as Hold.
  { eapply Forall_impl; [exact IH|]. intros e (Hsum & Hpos & poll & Hp & Htx).
    split; [done|]. split; [done|].
    destruct (handle_keeps_polls v s r e.1 poll Hp) as (poll' & Hp' & Hg & _).
    exists poll'. split; [done|]. destruct Hg as (_ & _ & _ & -> & _). done. }
  destruct r as [newId q opts now ok | pid idx ip now ok].
  - assert (emitted (handle v s (CreatePoll newId q opts now ok)).1 = emitted s) as ->; [|done].
    simpl. destruct (create_cases s newId q opts now ok) as [[_ ->] | H]; [done|].
    by destruct H as (_ & _ & _ & qt & os & _ & _ & _ & _ & ->).
  - destruct (vote_cases v s pid idx ip now ok) as [(_ & _ & Hem) | H];
      [by rewrite Hem|].
    destruct H as (_ & _ & p0 & p' & Hp0 & _ & Hc & _ & Hdb & Hem & _).
    rewrite Hem. apply Forall_app. split; [done|].
    apply Forall_singleton. cbn [fst snd].
    assert (tally_ok p0 ∧ 0 ≤ totalVotes p0) as [Hok Hpos].
    { split.
      - revert Hp0. apply (reachable_db_lookup v tally_ok); [| |done].
        + intros. unfold tally_ok; simpl. by rewrite sum_votes_fresh.
        + intros poll q' idx' ip' Hok' Hc' _. unfold tally_ok in *.
          destruct (stored_doc_tally v ip' q') as [-> ->].
          destruct (castVote_tally _ _ _ Hc') as (-> & -> & _). lia.
      - revert Hp0. apply (reachable_db_lookup v (λ p, 0 ≤ totalVotes p)); [| |done].
        + intros. simpl. lia.
        + intros poll q' idx' ip' Hok' Hc' _.
          destruct (stored_doc_tally v ip' q') as [_ ->].
          destruct (castVote_tally _ _ _ Hc') as (_ & -> & _). lia. }
    rewrite Hdb, lookup_insert_eq.
    destruct (stored_doc_tally v ip p') as [Ho Ht]. rewrite Ho, Ht.
    destruct (castVote_tally _ _ _ Hc) as (-> & -> & _). unfold tally_ok in Hok.
    split; [lia|]. split; [lia|]. eexists. split; [done|]. by rewrite Ho.
Qed.

Lemma broadcasts_are_consistent_witness :
  Forall (λ e, e.2.2 = sum_votes e.2.1 ∧ 0 < e.2.2 ∧
               ∃ poll, db (demo_voted one_shot) !! e.1 = Some poll ∧
                       text <$> e.2.1 = text <$> options poll)
    (emitted (demo_voted one_shot)).
Proof.
  apply (broadcasts_are_consistent one_shot (demo_voted one_shot)).
  apply run_reachable, demo_reachable.
Defined.

(** ** A save that overlaps other votes *)

(** Why the statements above about stored counts ask for requests handled
    one at a time.  In the rate-limited server the handler of "x" loads the
    poll with no votes; before it saves, the votes of "y" and "z" for the
    same option are handled in full and the stored count is 2; then the save
    of "x" completes, is answered 200 with a tally of one vote, and the
    stored count and total are 1. *)
Lemma stale_save_lowers_count :
  let first := Interleaved.resume demo (Interleaved.AwaitFindOne "p1" (VInt 0) "x")
                 1000 true in
  let between := run rate_limited first.1
                   [Vote "p1" (VInt 0) "y" 1001 true; Vote "p1" (VInt 0) "z" 1002 true] in
  let last := Interleaved.resume between first.2 1003 true in
  option_votes between "p1" 0 = Some 2 ∧
  last.2 = Interleaved.Answered
             (mkResponse 200 (Recorded [mkOption "A" 1; mkOption "B" 0] 1)) ∧
  option_votes last.1 "p1" 0 = Some 1 ∧
  db last.1 !! "p1" =
    Some (mkPoll "p1" "Tea?" [mkOption "A" 1; mkOption "B" 0] [] 1 5).
Proof. vm_compute. repeat split; reflexivity. Qed.
